(** * PJAText2: the flag engine, its instruction builder and its commands

    A shallow embedding of [instruction.h], [command.h], [operations.h],
    [wrappers.h], [app_commands.h] and [engine.h], followed by the properties
    of the dispatch protocol.

    Conventions.
    - [String] is [std::string], modelled by [string]; [Vec<T>] by [list T];
      [Option<T>] by [option T].
    - [usize] is [size_t], taken at 64 bits; its arithmetic wraps around.
    - [i32 mod] is a [Z]; only the values 0 and 1 are ever stored in it.
    - What the C++ standard library leaves open (the iteration order of an
      [std::unordered_map], the order [std::sort] gives to equivalent
      elements) and what the operating system provides (files) are
      parameters of the model, bundled in the records [StdLib] and
      [FileSystem]. *)

From Stdlib Require Import String Ascii List Bool Arith NArith ZArith Lia.
From Stdlib Require Import Permutation Sorted DecimalString.
Import ListNotations.

Open Scope string_scope.
Open Scope list_scope.

(* ------------------------------------------------------------------ *)
(** ** type_aliases.h *)

Definition usize_modulus : N := 2 ^ 64.

Definition SIZE_MAX : N := usize_modulus - 1.

(** Addition and subtraction on [usize]. *)
Definition usize_add (a b : N) : N := ((a + b) mod usize_modulus)%N.

Definition usize_sub (a b : N) : N :=
  ((a + usize_modulus - b mod usize_modulus) mod usize_modulus)%N.

(** [String::empty]. *)
Definition empty (s : string) : bool :=
  match s with
  | EmptyString => true
  | String _ _ => false
  end.

(** [String::pop_back], called on non-empty strings only. *)
Fixpoint pop_back (s : string) : string :=
  match s with
  | EmptyString => EmptyString
  | String _ EmptyString => EmptyString
  | String c s' => String c (pop_back s')
  end.

(** [ss << n] for an unsigned count. *)
Definition show_N (n : N) : string := NilZero.string_of_uint (N.to_uint n).

(* ------------------------------------------------------------------ *)
(** ** operations.h *)

Record Operations := mkOperations {
  file_in : string;
  file_out : string;
  source : string;
  is_panicked : bool
}.

(** [Operations()]. *)
Definition Operations_new : Operations :=
  {| file_in := ""; file_out := ""; source := ""; is_panicked := false |}.

Definition set_file_in (v : string) (o : Operations) : Operations :=
  {| file_in := v; file_out := file_out o; source := source o;
     is_panicked := is_panicked o |}.

Definition set_file_out (v : string) (o : Operations) : Operations :=
  {| file_in := file_in o; file_out := v; source := source o;
     is_panicked := is_panicked o |}.

Definition set_source (v : string) (o : Operations) : Operations :=
  {| file_in := file_in o; file_out := file_out o; source := v;
     is_panicked := is_panicked o |}.

Definition set_is_panicked (v : bool) (o : Operations) : Operations :=
  {| file_in := file_in o; file_out := file_out o; source := source o;
     is_panicked := v |}.

(* ------------------------------------------------------------------ *)
(** ** instruction.h: Result and Output *)

Inductive Result := Ok | Err | Undefined.

Record Output := mkOutput {
  res : Result;
  msg : string
}.

(** [Output()]. *)
Definition Output_new : Output := {| res := Undefined; msg := "" |}.

Definition Output_new_ok (message : string) : Output :=
  {| res := Ok; msg := message |}.

Definition Output_new_err (message : string) : Output :=
  {| res := Err; msg := message |}.

Definition is_ok (o : Output) : bool :=
  match res o with Ok => true | _ => false end.

Definition is_err (o : Output) : bool :=
  match res o with Err => true | _ => false end.

Definition is_undefined (o : Output) : bool :=
  match res o with Undefined => true | _ => false end.

Definition get_message (o : Output) : string := msg o.

(* ------------------------------------------------------------------ *)
(** ** instruction.h: Flag *)

Record Flag := mkFlag {
  name : string;
  arg : string;
  pos : N;
  mod_ : Z
}.

(** [Flag()]. Its body builds a temporary [Flag("", "", SIZE_MAX)] and drops
    it, so the object itself is default-initialised: [name] and [arg] are
    empty, [mod] is 0 by its member initialiser, and [pos] is left
    indeterminate. The value found there is the parameter [uninit]. *)
Definition Flag_new (uninit : N) : Flag :=
  {| name := ""; arg := ""; pos := uninit; mod_ := 0 |}.

Definition set_name (v : string) (f : Flag) : Flag :=
  {| name := v; arg := arg f; pos := pos f; mod_ := mod_ f |}.

Definition set_arg (v : string) (f : Flag) : Flag :=
  {| name := name f; arg := v; pos := pos f; mod_ := mod_ f |}.

Definition set_pos (v : N) (f : Flag) : Flag :=
  {| name := name f; arg := arg f; pos := v; mod_ := mod_ f |}.

Definition set_mod (v : Z) (f : Flag) : Flag :=
  {| name := name f; arg := arg f; pos := pos f; mod_ := v |}.

(** [Flag::is_empty]. *)
Definition Flag_is_empty (f : Flag) : bool := empty (arg f).

(** [Flag::exists]. *)
Definition Flag_exists (f : Flag) : bool := negb (empty (name f)).

(** [Flag::parse]. *)
Definition Flag_parse (f : Flag) : Flag :=
  if negb (empty (arg f)) then set_arg (pop_back (arg f)) f else f.

(** [Flag::name_in]. *)
Fixpoint name_in (f : Flag) (names : list string) : bool :=
  match names with
  | [] => false
  | name_outer :: rest =>
      if String.eqb (name f) name_outer then true else name_in f rest
  end.

(* ------------------------------------------------------------------ *)
(** ** instruction.h: Instruction *)

(** The struct has the single member [Vec<Flag> flags]. *)
Definition Instruction := list Flag.

(** [arg.rfind("-", 0) == 0]: the token starts with a dash. *)
Definition is_flag_token (token : string) : bool := prefix "-" token.

(** The body of the [for] loop of [from_vec_string], from index [i] on:
    [vec_s] holds the tokens at [i], [i + 1], ..., so that
    [i + 1 == vec_s.size()] holds exactly when the tail is empty. The
    [continue] on an empty token also skips that test. *)
Fixpoint from_vec_string_loop (uninit : N) (vec_s : list string)
    (position : N) (flags : list Flag) (flag : Flag) : list Flag :=
  match vec_s with
  | [] => flags
  | token :: rest =>
      if empty token then from_vec_string_loop uninit rest position flags flag
      else
        let is_flag := is_flag_token token in
        let '(position, flags, flag) :=
          if is_flag then
            let '(flags, flag) :=
              if Flag_exists flag
              then (flags ++ [Flag_parse flag], Flag_new uninit)
              else (flags, flag) in
            (usize_add position 1, flags, set_pos position (set_name token flag))
          else
            if Flag_exists flag
            then (position, flags, set_arg (arg flag ++ token ++ " ") flag)
            else (position, flags, flag) in
        let flags :=
          match rest with
          | [] => flags ++ [Flag_parse flag]
          | _ :: _ => flags
          end in
        from_vec_string_loop uninit rest position flags flag
  end.

(** [Instruction::from_vec_string]. *)
Definition from_vec_string (uninit : N) (vec_s : list string) : Instruction :=
  from_vec_string_loop uninit vec_s 0%N [] (Flag_new uninit).

(** [Instruction::get_flag(const String)]. *)
Definition get_flag_by_name (inst : Instruction) (n : string) : option Flag :=
  find (fun flag => String.eqb (name flag) n) inst.

(** [Instruction::get_flag(const usize)]. *)
Definition get_flag (inst : Instruction) (index : N) : option Flag :=
  find (fun flag => N.eqb (pos flag) index) inst.

(** [Instruction::get_flag_ptr]: the first flag at that position, still inside
    the instruction. The model returns the flag read through the pointer;
    writes through it are [update_flag_ptr]. *)
Definition get_flag_ptr (inst : Instruction) (index : N) : option Flag :=
  find (fun flag => N.eqb (pos flag) index) inst.

(** A write [flag_ptr->mod = v] through the pointer [get_flag_ptr(index)]. *)
Fixpoint update_flag_ptr (inst : Instruction) (index : N) (v : Z) : Instruction :=
  match inst with
  | [] => []
  | flag :: rest =>
      if N.eqb (pos flag) index then set_mod v flag :: rest
      else flag :: update_flag_ptr rest index v
  end.

(** [Instruction::flag_exists]. *)
Definition flag_exists (inst : Instruction) (caller alias : string) : bool :=
  existsb (fun flag => String.eqb (name flag) caller || String.eqb (name flag) alias) inst.

(** [Instruction::size]. *)
Definition size (inst : Instruction) : N := N.of_nat (length inst).

(** [Instruction::get_flags]. *)
Definition get_flags (inst : Instruction) : list Flag := inst.

(* ------------------------------------------------------------------ *)
(** ** command.h and app_commands.h: the commands there are

    [Engine::add] keeps one static instance per command type and stores its
    address, so a [Command*] is identified by the type of the command. *)

Inductive Command :=
  | SourceFile | InputFile | OutputFile
  | CountLines | CountDigits | CountNumbers | CountChars | CountWords
  | ShowAnagrams | ShowPalindromes | ShowWords | ShowWordsReverse
  | ShowFileSize
  | WordsConsiderLength.

Definition Command_eq_dec (a b : Command) : {a = b} + {a <> b}.
Proof. decide equality. Defined.

Definition Command_eqb (a b : Command) : bool :=
  if Command_eq_dec a b then true else false.

(* ------------------------------------------------------------------ *)
(** ** What the platform provides *)

(** The named requirement Compare of [std::sort]: a strict weak ordering. *)
Record strict_weak_order {A : Type} (cmp : A -> A -> bool) : Prop := {
  swo_irrefl : forall x, cmp x x = false;
  swo_trans : forall x y z, cmp x y = true -> cmp y z = true -> cmp x z = true;
  swo_equiv_trans : forall x y z,
    cmp x y = false -> cmp y x = false ->
    cmp y z = false -> cmp z y = false ->
    cmp x z = false /\ cmp z x = false
}.

(** The parts of the C++ standard library whose result the standard does not
    fix, with the guarantees it does give.
    - [std_sort]: for a [comp] that is a strict weak ordering,
      [std::sort(first, last, comp)] returns a permutation of its input in
      which no element is [comp]-less than an earlier one; elements
      equivalent under [comp] come in an order the implementation chooses.
    - [iter_validated] and [iter_names]: the order in which a range-[for]
      visits the elements of an [std::unordered_map], given its elements in
      the order their keys were first inserted; the first is for the
      [HashMap<Command*, Flag>] of the engine, the second for the
      [HashMap<u32, String>] maps of the holder. The order may depend on the
      keys (on their hashes); every element is visited once.
    - [f32_size_report]: the text [ShowFileSize::execute] streams for a file
      of the given size in bytes (division by 1000 in [float], rounding
      through [i32], and the stream's formatting of a [float]); floating
      point is kept outside the model. *)
Record StdLib := mkStdLib {
  std_sort : forall A : Type, (A -> A -> bool) -> list A -> list A;
  std_sort_perm : forall A cmp l,
    strict_weak_order cmp -> Permutation (std_sort A cmp l) l;
  std_sort_sorted : forall A cmp l,
    strict_weak_order cmp ->
    StronglySorted (fun x y => cmp y x = false) (std_sort A cmp l);
  iter_validated : list (Command * Flag) -> list (Command * Flag);
  iter_validated_perm : forall m, Permutation (iter_validated m) m;
  iter_names : list (nat * string) -> list (nat * string);
  iter_names_perm : forall m, Permutation (iter_names m) m;
  f32_size_report : N -> string
}.

Arguments std_sort _ {A} _ _.

(** file_operations.cpp, namespace [File]: the files as the run finds them.
    [File::write_unchecked] is the one write of a run and its last action; it
    is reported in the run's result instead of changing this record.
    [File_read_unchecked] is what [File::read_unchecked] returns when it
    returns: its loop [do ... while (!eof())] does not end on a stream that
    fails before the end of the file (a directory passes [File::exists]),
    and such a read has no value here. What is proved of a run is proved of
    a run whose reads return. *)
Record FileSystem := mkFileSystem {
  File_exists : string -> bool;
  File_read_unchecked : string -> string;
  File_get_size : string -> N
}.

(* ------------------------------------------------------------------ *)
(** ** app_commands.h: namespace __Helpers *)

Definition nl : string := String (ascii_of_nat 10) "".

Definition dquote : string := String (ascii_of_nat 34) "".

(** [\s] of [std::regex] in the classic locale. *)
Definition is_space (c : ascii) : bool :=
  let n := nat_of_ascii c in
  (n =? 32)%nat || ((9 <=? n)%nat && (n <=? 13)%nat).

(** [[0-9]]. *)
Definition is_digit (c : ascii) : bool :=
  let n := nat_of_ascii c in (48 <=? n)%nat && (n <=? 57)%nat.

(** [\w] of [std::regex] in the classic locale. *)
Definition is_word_char (c : ascii) : bool :=
  let n := nat_of_ascii c in
  is_digit c || ((65 <=? n)%nat && (n <=? 90)%nat)
  || ((97 <=? n)%nat && (n <=? 122)%nat) || (n =? 95)%nat.

(** [Info::flag_string_stream]. *)
Definition flag_string_stream (flag : Flag) : string :=
  "<" ++ name flag ++ "> ".

(** [Info::flag_string_stream_structure]. *)
Definition flag_string_stream_structure (flag : Flag) (collection : list string) : string :=
  (flag_string_stream flag ++
  match collection with
  | [] => "{ }"
  | _ :: _ =>
      "{" ++ nl ++
      fold_left (fun ss word => (ss ++ "    " ++ dquote ++ word ++ dquote ++ "," ++ nl)%string)
                collection "" ++
      "}"
  end)%string.

(** The matches of [(?!\s)[\S]+] in [target], left to right: the maximal runs
    of characters that are not white space. [word] is the run being read. *)
Fixpoint words_from (target : string) (word : string) : list string :=
  match target with
  | EmptyString => if empty word then [] else [word]
  | String c target' =>
      if is_space c
      then (if empty word then words_from target' ""
            else word :: words_from target' "")
      else words_from target' (word ++ String c "")
  end.

(** [Regex::get_words]. *)
Definition get_words (target : string) : list string := words_from target "".

(** True when the digits at the head of [s] are followed by the end of the
    string or by a character outside [\w]: the lookahead [(?!\w)] after a
    maximal [[0-9]+]. *)
Fixpoint number_ends (s : string) : bool :=
  match s with
  | EmptyString => true
  | String c s' => if is_digit c then number_ends s' else negb (is_word_char c)
  end.

(** The number of matches of [(^|\s)[0-9]+(?!\w)]: a match starts at the
    beginning of the string or on a white-space character ([boundary]),
    takes the whole run of digits behind it, and needs that run not to be
    followed by a word character. *)
Fixpoint count_numbers_from (boundary : bool) (s : string) : N :=
  match s with
  | EmptyString => 0
  | String c s' =>
      ((if boundary && is_digit c && number_ends s then 1 else 0)
       + count_numbers_from (is_space c) s')%N
  end.

(** [Regex::count_matches] at the two patterns the commands use. *)
Definition count_matches_words (target : string) : N :=
  N.of_nat (length (get_words target)).

Definition count_matches_numbers (target : string) : N :=
  count_numbers_from true target.

(** [Comparators::get_default]. *)
Definition get_default (as_size : bool) : string -> string -> bool :=
  if as_size
  then fun left right => (String.length left <? String.length right)%nat
  else fun left right => String.ltb left right.

(** [Comparators::get_reverse]. *)
Definition get_reverse (as_size : bool) : string -> string -> bool :=
  if as_size
  then fun left right => (String.length right <? String.length left)%nat
  else fun left right => String.ltb right left.

(** [Strings::are_anagrams]. The characters are compared by their codes. *)
Definition are_anagrams (std : StdLib) (first second : string) : bool :=
  if negb (String.length first =? String.length second)%nat then false
  else
    let first := std_sort std Ascii.ltb (list_ascii_of_string first) in
    let second := std_sort std Ascii.ltb (list_ascii_of_string second) in
    String.eqb (string_of_list_ascii first) (string_of_list_ascii second).

(** [Strings::are_palindromes]. *)
Definition are_palindromes (first second : string) : bool :=
  if negb (String.length first =? String.length second)%nat then false
  else
    let second := string_of_list_ascii (rev (list_ascii_of_string second)) in
    String.eqb first second.

(** [std::unique] followed by [erase]: each run of equal neighbours keeps
    its first element. *)
Fixpoint unique (l : list string) : list string :=
  match l with
  | [] => []
  | x :: rest =>
      match rest with
      | [] => [x]
      | y :: _ => if String.eqb x y then unique rest else x :: unique rest
      end
  end.

(** The nested loops of [ShowAnagrams::execute] and
    [ShowPalindromes::execute]: [first] is pushed once for every word of
    the flag it is related to. *)
Definition collect_related (related : string -> string -> bool)
    (words_source words_flag : list string) : list string :=
  flat_map (fun first =>
              flat_map (fun second => if related first second then [first] else [])
                       words_flag)
           words_source.

(** [std::count] of a character and [std::count_if]. *)
Fixpoint count_if (p : ascii -> bool) (s : string) : N :=
  match s with
  | EmptyString => 0
  | String c s' => ((if p c then 1 else 0) + count_if p s')%N
  end.

(* ------------------------------------------------------------------ *)
(** ** command.h and app_commands.h: what the commands do *)

(** [Command::caller]. *)
Definition caller (c : Command) : string :=
  match c with
  | SourceFile => "-f"
  | InputFile => "-i"
  | OutputFile => "-o"
  | CountLines => "-n"
  | CountDigits => "-d"
  | CountNumbers => "-dd"
  | CountChars => "-c"
  | CountWords => "-w"
  | ShowAnagrams => "-a"
  | ShowPalindromes => "-p"
  | ShowWords => "-s"
  | ShowWordsReverse => "-rs"
  | ShowFileSize => "-si"
  | WordsConsiderLength => "-l"
  end.

(** [Command::alias]. *)
Definition alias (c : Command) : string :=
  match c with
  | SourceFile => "--file"
  | InputFile => "--input"
  | OutputFile => "--output"
  | CountLines => "--newlines"
  | CountDigits => "--digits"
  | CountNumbers => "--numbers"
  | CountChars => "--chars"
  | CountWords => "--words"
  | ShowAnagrams => "--anagrams"
  | ShowPalindromes => "--palindromes"
  | ShowWords => "--sorted"
  | ShowWordsReverse => "--reverse-sorted"
  | ShowFileSize => "--size"
  | WordsConsiderLength => "--by-length"
  end.

(** [validate] of [ShowAnagrams] and of [ShowPalindromes], which have the
    same body. *)
Definition validate_last_with_argument (flag : Flag) (inst : Instruction) : Output :=
  let ss := flag_string_stream flag in
  match get_flag inst (usize_add (pos flag) 1) with
  | Some _ => Output_new_err (ss ++ "This flag should be the last one")
  | None =>
      if empty (arg flag)
      then Output_new_err (ss ++ "This flag requires an argument!")
      else Output_new_ok ""
  end.

(** [Command::validate]. The instruction and the operations are passed by
    reference; the result carries them as the command leaves them. *)
Definition validate (fs : FileSystem) (c : Command) (flag : Flag)
    (inst : Instruction) (operations : Operations)
    : Output * Instruction * Operations :=
  let ss := flag_string_stream flag in
  match c with
  | SourceFile =>
      if empty (arg flag)
      then (Output_new_err (ss ++ "This flag requires an argument!"), inst, operations)
      else if negb (File_exists fs (arg flag))
      then (Output_new_err (ss ++ "Provided file doesn't exists!"), inst, operations)
      else
        let operations := set_file_in (arg flag) operations in
        let operations :=
          set_source (File_read_unchecked fs (file_in operations)) operations in
        (Output_new_ok "", inst, operations)
  | OutputFile =>
      if empty (arg flag)
      then (Output_new_err (ss ++ "This flag requires an argument!"), inst, operations)
      else (Output_new_ok "", inst, set_file_out (arg flag) operations)
  | ShowAnagrams | ShowPalindromes =>
      (validate_last_with_argument flag inst, inst, operations)
  | WordsConsiderLength =>
      let index := usize_add (pos flag) 1 in
      match get_flag_ptr inst index with
      | Some flag_after =>
          if name_in flag_after ["-l"; "--by-length"]
          then (Output_new_ok "", inst, operations)
          else if negb (name_in flag_after ["-rs"; "--reverse-sorted"; "-s"; "--sorted"])
          then (Output_new_err (ss ++ "Missing required flag after this one!"),
                inst, operations)
          else (Output_new_ok "", update_flag_ptr inst index 1, operations)
      | None =>
          (Output_new_err (ss ++ "This flag can't be the last one!"), inst, operations)
      end
  | InputFile | CountLines | CountDigits | CountNumbers | CountChars
  | CountWords | ShowWords | ShowWordsReverse | ShowFileSize =>
      (Output_new_ok "", inst, operations)
  end.

(** [Command::execute]. No command writes to the operations here. *)
Definition execute (std : StdLib) (fs : FileSystem) (c : Command) (flag : Flag)
    (operations : Operations) : Output :=
  let ss := flag_string_stream flag in
  match c with
  | SourceFile | InputFile | OutputFile | WordsConsiderLength => Output_new_ok ""
  | CountLines =>
      Output_new_ok
        (ss ++ "New lines: "
            ++ show_N (count_if (Ascii.eqb (ascii_of_nat 10)) (source operations)))
  | CountDigits =>
      Output_new_ok (ss ++ "Digits: " ++ show_N (count_if is_digit (source operations)))
  | CountNumbers =>
      Output_new_ok (ss ++ "Numbers: " ++ show_N (count_matches_numbers (source operations)))
  | CountChars =>
      Output_new_ok
        (ss ++ "Chars: "
            ++ show_N (usize_sub (N.of_nat (String.length (source operations))) 1))
  | CountWords =>
      Output_new_ok (ss ++ "Words: " ++ show_N (count_matches_words (source operations)))
  | ShowAnagrams =>
      let words_source := get_words (source operations) in
      let words_flag := get_words (arg flag) in
      let anagrams := collect_related (are_anagrams std) words_source words_flag in
      Output_new_ok (flag_string_stream_structure flag (unique anagrams))
  | ShowPalindromes =>
      let words_source := get_words (source operations) in
      let words_flag := get_words (arg flag) in
      let palindromes := collect_related are_palindromes words_source words_flag in
      Output_new_ok (flag_string_stream_structure flag (unique palindromes))
  | ShowWords =>
      let words := get_words (source operations) in
      let words := std_sort std (get_default (mod_ flag =? 1)%Z) words in
      Output_new_ok (flag_string_stream_structure flag words)
  | ShowWordsReverse =>
      let words := get_words (source operations) in
      let words := std_sort std (get_reverse (mod_ flag =? 1)%Z) words in
      Output_new_ok (flag_string_stream_structure flag words)
  | ShowFileSize =>
      Output_new_ok
        (ss ++ f32_size_report std (File_get_size fs (file_in operations)))
  end.

(* ------------------------------------------------------------------ *)
(** ** command.h: CommandsHolder

    The holder keeps three unordered maps keyed by the same running [id]:
    [callers], [aliases] and [commands]. It is modelled by the list of the
    commands added, the command with id [i] at index [i]; the maps are read
    off that list. *)

Definition CommandsHolder := list Command.

Definition CommandsHolder_new : CommandsHolder := [].

Definition indexed {A : Type} (l : list A) : list (nat * A) :=
  combine (seq 0 (length l)) l.

Definition callers (h : CommandsHolder) : list (nat * string) :=
  indexed (map caller h).

Definition aliases (h : CommandsHolder) : list (nat * string) :=
  indexed (map alias h).

(** [CommandsHolder::add]. *)
Definition CommandsHolder_add (command_ptr : Command) (h : CommandsHolder)
    : CommandsHolder :=
  h ++ [command_ptr].

(** The loop [for (auto& entry : m) if (entry.second == key) return
    commands[entry.first]] over one of the string maps. *)
Definition lookup_id (std : StdLib) (h : CommandsHolder)
    (m : list (nat * string)) (key : string) : option Command :=
  match find (fun entry => String.eqb (snd entry) key) (iter_names std m) with
  | Some entry => nth_error h (fst entry)
  | None => None
  end.

(** [CommandsHolder::get_by_alias]. *)
Definition get_by_alias (std : StdLib) (h : CommandsHolder) (a : string)
    : option Command :=
  lookup_id std h (aliases h) a.

(** [CommandsHolder::get_by_caller]. *)
Definition get_by_caller (std : StdLib) (h : CommandsHolder) (c : string)
    : option Command :=
  lookup_id std h (callers h) c.

(** [CommandsHolder::exists]. Both loops look for one match, wherever it is,
    so the order of the visit plays no part. *)
Definition CommandsHolder_exists (h : CommandsHolder) (c a : string) : bool :=
  let found_caller := existsb (fun entry => String.eqb (snd entry) c) (callers h) in
  if negb found_caller then false
  else existsb (fun entry => String.eqb (snd entry) a) (aliases h).

(* ------------------------------------------------------------------ *)
(** ** engine.h: Engine *)

Record Engine := mkEngine {
  commands : CommandsHolder;
  outputs : list Output;
  operations : Operations
}.

(** [Engine::clear]. *)
Definition clear (e : Engine) : Engine :=
  {| commands := commands e; outputs := []; operations := Operations_new |}.

(** One turn of the loop of [grab_output] over the outputs. *)
Definition render (output_stream : string) (output : Output) : string :=
  let message := get_message output in
  if empty message then output_stream
  else
    let result := if is_ok output then "[SUCCESS]" else "[ERROR]" in
    output_stream ++ result ++ ": " ++ message ++ nl.

(** What a call of [Engine::execute] hands back: the string returned, the
    file written by [File::write_unchecked] with its content, if any, and
    the engine as the call leaves it. *)
Record Returned := mkReturned {
  returned : string;
  written : option (string * string);
  engine_after : Engine
}.

(** [Engine::grab_output]. *)
Definition grab_output (e : Engine) : Returned :=
  let output_stream := fold_left render (outputs e) "" in
  if negb (empty (file_out (operations e)))
  then {| returned := ""; written := Some (file_out (operations e), output_stream);
          engine_after := e |}
  else {| returned := output_stream; written := None; engine_after := clear e |}.

(** [Engine::add]. *)
Definition Engine_add (command : Command) (e : Engine) : Engine :=
  if CommandsHolder_exists (commands e) (caller command) (alias command) then e
  else {| commands := CommandsHolder_add command (commands e);
          outputs := outputs e; operations := operations e |}.

(** [Engine::Engine], with [add_base_commands]. *)
Definition Engine_new : Engine :=
  Engine_add OutputFile
    (Engine_add InputFile
      (Engine_add SourceFile
        {| commands := CommandsHolder_new; outputs := []; operations := Operations_new |})).

(** [create_engine] of the main file. *)
Definition create_engine : Engine :=
  fold_left (fun engine command => Engine_add command engine)
    [CountChars; CountDigits; CountLines; CountNumbers; CountWords;
     ShowAnagrams; ShowFileSize; ShowPalindromes; ShowWords; ShowWordsReverse;
     WordsConsiderLength]
    Engine_new.

(** [validated_commands[command] = flag] on the [HashMap<Command*, Flag>],
    whose elements are kept in the order their keys were first inserted: a
    key already there gets the new flag, a new key a new element. *)
Fixpoint hm_assign (m : list (Command * Flag)) (command : Command) (flag : Flag)
    : list (Command * Flag) :=
  match m with
  | [] => [(command, flag)]
  | (k, v) :: rest =>
      if Command_eqb k command then (k, flag) :: rest
      else (k, v) :: hm_assign rest command flag
  end.

(** The variables of [Engine::execute] while the validation loop runs.
    [validate_calls] is not in the source: it lists, in order, the
    (command, flag) pairs whose [validate] succeeded, that is the
    assignments made to [validated_commands]. *)
Record Validation := mkValidation {
  v_inst : Instruction;
  v_operations : Operations;
  v_outputs : list Output;
  validated_commands : list (Command * Flag);
  validate_calls : list (Command * Flag)
}.

(** The resolution of a flag name: by caller first, then by alias. *)
Definition resolve (std : StdLib) (h : CommandsHolder) (n : string) : option Command :=
  match get_by_caller std h n with
  | Some command => Some command
  | None => get_by_alias std h n
  end.

(** The three ways a turn of the validation loop ends: the command is
    recorded as validated; its [validate] failed; no command has the name of
    the flag. The last two leave the loop. *)
Definition record_validated (st : Validation) (command : Command) (flag : Flag)
    (inst : Instruction) (operations : Operations) : Validation :=
  {| v_inst := inst;
     v_operations := operations;
     v_outputs := v_outputs st;
     validated_commands := hm_assign (validated_commands st) command flag;
     validate_calls := validate_calls st ++ [(command, flag)] |}.

Definition stop_on_error (st : Validation) (output : Output)
    (inst : Instruction) (operations : Operations) : Validation :=
  {| v_inst := inst;
     v_operations := set_is_panicked true operations;
     v_outputs := v_outputs st ++ [output];
     validated_commands := validated_commands st;
     validate_calls := validate_calls st |}.

Definition stop_on_invalid_flag (st : Validation) (flag : Flag) : Validation :=
  {| v_inst := v_inst st;
     v_operations := set_is_panicked true (v_operations st);
     v_outputs :=
       v_outputs st
       ++ [Output_new_err ("<ENGINE> Invalid flag: [" ++ name flag ++ "]")];
     validated_commands := validated_commands st;
     validate_calls := validate_calls st |}.

(** The loop [for (Flag flag : inst.get_flags())], from the flag at index [i]
    on, with [n] flags left to visit. Each turn copies the flag as the
    instruction holds it at that time, so it sees the writes earlier turns
    made through [get_flag_ptr]. *)
Fixpoint validation_loop (std : StdLib) (fs : FileSystem) (h : CommandsHolder)
    (n i : nat) (st : Validation) : Validation :=
  match n with
  | O => st
  | S n' =>
      match nth_error (get_flags (v_inst st)) i with
      | None => st
      | Some flag =>
          match resolve std h (name flag) with
          | Some command =>
              let '(output, inst, operations) :=
                validate fs command flag (v_inst st) (v_operations st) in
              if is_err output
              then stop_on_error st output inst operations
              else validation_loop std fs h n' (S i)
                     (record_validated st command flag inst operations)
          | None => stop_on_invalid_flag st flag
          end
      end
  end.

(** The variables on entry to the loop. *)
Definition validation_start (e : Engine) (inst : Instruction) : Validation :=
  {| v_inst := inst; v_operations := operations e; v_outputs := outputs e;
     validated_commands := []; validate_calls := [] |}.

(** The validation pass over the working instruction [inst]. *)
Definition validation_pass (std : StdLib) (fs : FileSystem) (e : Engine)
    (inst : Instruction) : Validation :=
  validation_loop std fs (commands e) (length (get_flags inst)) 0
    (validation_start e inst).

(** The loop after its first [k] turns. *)
Definition validation_prefix (std : StdLib) (fs : FileSystem) (e : Engine)
    (inst : Instruction) (k : nat) : Validation :=
  validation_loop std fs (commands e) k 0 (validation_start e inst).

(** The source check that follows the loop. *)
Definition source_check (v : Validation) : Validation :=
  if empty (file_in (v_operations v)) && empty (source (v_operations v)) then
    {| v_inst := v_inst v;
       v_operations := set_is_panicked true (v_operations v);
       v_outputs := v_outputs v ++ [Output_new_err "<ENGINE> Source file is invalid!"];
       validated_commands := validated_commands v;
       validate_calls := validate_calls v |}
  else v.

(** One turn of the loop [for (auto& pair : validated_commands)]: the call
    of [execute] on the pair, and the push of its output when it has a
    message. The second component is not in the source: the turn adds the
    call it has made to the list of the calls made so far. *)
Definition execution_turn (std : StdLib) (fs : FileSystem)
    (operations : Operations) (st : list Output * list (Command * Flag))
    (call : Command * Flag) : list Output * list (Command * Flag) :=
  let output := execute std fs (fst call) (snd call) operations in
  (if negb (empty (get_message output)) then fst st ++ [output] else fst st,
   snd st ++ [call]).

(** The loop over the pairs [calls] the map hands out: the outputs it leaves
    and the calls of [execute] it has made, in order. *)
Definition execution_loop (std : StdLib) (fs : FileSystem)
    (operations : Operations) (calls : list (Command * Flag))
    (outputs : list Output) : list Output * list (Command * Flag) :=
  fold_left (execution_turn std fs operations) calls (outputs, []).

(** A run of [Engine::execute] up to its final [return grab_output()]:
    the engine at that point, the successful [validate] calls in order as
    the validation loop made them, and the [execute] calls in order as the
    execution loop made them, when the execution pass was reached. *)
Record Trace := mkTrace {
  t_engine : Engine;
  t_validated : list (Command * Flag);
  t_executed : option (list (Command * Flag))
}.

(** One of the three early returns of the input-file branch. *)
Definition abort (e : Engine) (message : string) : Trace :=
  {| t_engine := {| commands := commands e;
                    outputs := outputs e ++ [Output_new_err message];
                    operations := operations e |};
     t_validated := [];
     t_executed := None |}.

(** The first part of [Engine::execute]: the instruction the validation loop
    will work on, or the early return taken. [None] stands for the
    dereference of a null [flag_ptr]. *)
Definition working_instruction (fs : FileSystem) (uninit : N)
    (raw_args : list string) (e : Engine) : option (Instruction + Trace) :=
  let inst := from_vec_string uninit raw_args in
  if flag_exists inst (caller InputFile) (alias InputFile) then
    if negb (size inst =? 1)%N
    then Some (inr (abort e "<ENGINE> Input file flag should be the only one!"))
    else
      match get_flag_ptr inst 0 with
      | None => None
      | Some flag =>
          if Flag_is_empty flag
          then Some (inr (abort e "<ENGINE> Input file flag requires an argument!"))
          else if negb (File_exists fs (arg flag))
          then Some (inr (abort e "<ENGINE> Input file flag has invalid file as an argument!"))
          else Some (inl (from_vec_string uninit
                            (get_words (File_read_unchecked fs (arg flag)))))
      end
  else Some (inl inst).

(** The rest of [Engine::execute], from the validation loop on. *)
Definition dispatch (std : StdLib) (fs : FileSystem) (e : Engine)
    (inst : Instruction) : Trace :=
  let v := source_check (validation_pass std fs e inst) in
  if is_panicked (v_operations v) then
    {| t_engine := {| commands := commands e; outputs := v_outputs v;
                      operations := v_operations v |};
       t_validated := validate_calls v;
       t_executed := None |}
  else
    let run :=
      execution_loop std fs (v_operations v)
        (iter_validated std (validated_commands v)) (v_outputs v) in
    {| t_engine := {| commands := commands e;
                      outputs := fst run;
                      operations := v_operations v |};
       t_validated := validate_calls v;
       t_executed := Some (snd run) |}.

(** [Engine::execute] up to its final [return grab_output()]. *)
Definition execute_trace (std : StdLib) (fs : FileSystem) (uninit : N)
    (raw_args : list string) (e : Engine) : option Trace :=
  match working_instruction fs uninit raw_args e with
  | None => None
  | Some (inr early) => Some early
  | Some (inl inst) => Some (dispatch std fs e inst)
  end.

(** [Engine::execute]. *)
Definition Engine_execute (std : StdLib) (fs : FileSystem) (uninit : N)
    (raw_args : list string) (e : Engine) : option Returned :=
  match execute_trace std fs uninit raw_args e with
  | None => None
  | Some t => Some (grab_output (t_engine t))
  end.

(* ------------------------------------------------------------------ *)
(** ** A reference implementation of the platform

    Insertion sort for [std::sort], and two iteration orders for the
    unordered maps: the order of first insertion, and its reverse. They show
    that the guarantees of [StdLib] can be met and serve to run the engine
    on concrete inputs. *)

Fixpoint insert_sorted {A : Type} (cmp : A -> A -> bool) (x : A) (l : list A) : list A :=
  match l with
  | [] => [x]
  | y :: l' => if cmp x y then x :: l else y :: insert_sorted cmp x l'
  end.

Fixpoint insertion_sort {A : Type} (cmp : A -> A -> bool) (l : list A) : list A :=
  match l with
  | [] => []
  | x :: l' => insert_sorted cmp x (insertion_sort cmp l')
  end.

Lemma insert_sorted_perm {A : Type} (cmp : A -> A -> bool) (x : A) (l : list A) :
  Permutation (insert_sorted cmp x l) (x :: l).
Proof.
  induction l as [|y l IH]; simpl.
  - apply Permutation_refl.
  - destruct (cmp x y).
    + apply Permutation_refl.
    + eapply perm_trans; [apply perm_skip, IH | apply perm_swap].
Qed.

Lemma insertion_sort_perm {A : Type} (cmp : A -> A -> bool) (l : list A) :
  Permutation (insertion_sort cmp l) l.
Proof.
  induction l as [|x l IH]; simpl.
  - apply perm_nil.
  - eapply perm_trans; [apply insert_sorted_perm | apply perm_skip, IH].
Qed.

Lemma insert_sorted_sorted {A : Type} (cmp : A -> A -> bool) (x : A) (l : list A) :
  strict_weak_order cmp ->
  StronglySorted (fun a b => cmp b a = false) l ->
  StronglySorted (fun a b => cmp b a = false) (insert_sorted cmp x l).
Proof.
  intros Hswo Hl. induction Hl as [|y l Hl IH Hy]; simpl.
  - repeat constructor.
  - destruct (cmp x y) eqn:Hxy.
    + constructor; [constructor; assumption|].
      assert (Hyx : cmp y x = false).
      { destruct (cmp y x) eqn:E; [|reflexivity].
        rewrite <- (swo_irrefl cmp Hswo x).
        symmetry. eapply swo_trans; eauto. }
      constructor; [exact Hyx|].
      rewrite Forall_forall in Hy |- *. intros z Hz.
      destruct (cmp z x) eqn:E; [|reflexivity].
      rewrite <- (Hy z Hz). symmetry. eapply swo_trans; eauto.
    + constructor; [exact IH|].
      eapply Permutation_Forall.
      * apply Permutation_sym, insert_sorted_perm.
      * constructor; assumption.
Qed.

Lemma insertion_sort_sorted {A : Type} (cmp : A -> A -> bool) (l : list A) :
  strict_weak_order cmp ->
  StronglySorted (fun a b => cmp b a = false) (insertion_sort cmp l).
Proof.
  intros Hswo. induction l as [|x l IH]; simpl.
  - constructor.
  - apply insert_sorted_sorted; assumption.
Qed.

(** Sizes below 1000 bytes print as the integer followed by the unit. *)
Definition reference_size_report (n : N) : string := show_N n ++ " B".

(** Iteration in the order of first insertion. *)
Definition reference_std : StdLib :=
  {| std_sort := @insertion_sort;
     std_sort_perm := fun A cmp l _ => insertion_sort_perm cmp l;
     std_sort_sorted := @insertion_sort_sorted;
     iter_validated := fun m => m;
     iter_validated_perm := fun m => Permutation_refl m;
     iter_names := fun m => m;
     iter_names_perm := fun m => Permutation_refl m;
     f32_size_report := reference_size_report |}.

(** Iteration from the element inserted last to the one inserted first. *)
Definition reversing_std : StdLib :=
  {| std_sort := @insertion_sort;
     std_sort_perm := fun A cmp l _ => insertion_sort_perm cmp l;
     std_sort_sorted := @insertion_sort_sorted;
     iter_validated := fun m => rev m;
     iter_validated_perm := fun m => Permutation_sym (Permutation_rev m);
     iter_names := fun m => rev m;
     iter_names_perm := fun m => Permutation_sym (Permutation_rev m);
     f32_size_report := reference_size_report |}.


(** A file system in which every path holds the same text. *)
Definition constant_fs (content : string) : FileSystem :=
  {| File_exists := fun _ => true;
     File_read_unchecked := fun _ => (content ++ nl)%string;
     File_get_size := fun _ => N.of_nat (String.length content) |}.

(** A file system without files. *)
Definition empty_fs : FileSystem :=
  {| File_exists := fun _ => false;
     File_read_unchecked := fun _ => "";
     File_get_size := fun _ => 0%N |}.

(** The report of a run, wherever it went: the content of the file written,
    or else the string returned. *)
Definition report (r : Returned) : string :=
  match written r with
  | Some (_, content) => content
  | None => returned r
  end.

(** The output of the source check. *)
Definition source_error : Output :=
  Output_new_err "<ENGINE> Source file is invalid!".

(** An engine holding the commands [h] and fresh run state. *)
Definition Engine_fresh (h : CommandsHolder) : Engine :=
  {| commands := h; outputs := []; operations := Operations_new |}.

(* ------------------------------------------------------------------ *)
(** ** The instruction builder as the specification words it

    The builder keeps a current flag under construction, absent at first.
    Empty tokens are skipped. A flag token finalizes and pushes the current
    flag, if there is one, and starts a new one at the next value of the
    counter. Any other token is appended, with one space, to the argument of
    the current flag, or dropped when there is none. At the end of the input
    the current flag, if there is one, is finalized and pushed. *)

Definition spec_finalize (current : option Flag) : list Flag :=
  match current with
  | Some flag => [Flag_parse flag]
  | None => []
  end.

Fixpoint spec_build_loop (tokens : list string) (counter : N)
    (current : option Flag) : list Flag :=
  match tokens with
  | [] => spec_finalize current
  | token :: rest =>
      if empty token then spec_build_loop rest counter current
      else if is_flag_token token then
        spec_finalize current
        ++ spec_build_loop rest (counter + 1)
             (Some {| name := token; arg := ""; pos := counter; mod_ := 0 |})
      else
        match current with
        | Some flag =>
            spec_build_loop rest counter
              (Some (set_arg (arg flag ++ token ++ " ") flag))
        | None => spec_build_loop rest counter None
        end
  end.

Definition spec_build (tokens : list string) : Instruction :=
  spec_build_loop tokens 0 None.

(* ------------------------------------------------------------------ *)
(** * Properties *)

(** ** Strings and small facts *)

Lemma append_nil_r (s : string) : (s ++ "")%string = s.
Proof. induction s as [|c s IH]; simpl; [reflexivity | now rewrite IH]. Qed.

Lemma append_assoc (s1 s2 s3 : string) :
  ((s1 ++ s2) ++ s3)%string = (s1 ++ (s2 ++ s3))%string.
Proof. induction s1 as [|c s1 IH]; simpl; [reflexivity | now rewrite IH]. Qed.

Lemma empty_true (s : string) : empty s = true <-> s = "".
Proof. destruct s; simpl; split; congruence. Qed.

Lemma empty_false (s : string) : empty s = false <-> s <> "".
Proof. destruct s; simpl; split; congruence. Qed.

Lemma is_flag_token_not_empty (token : string) :
  is_flag_token token = true -> empty token = false.
Proof. destruct token; simpl; [discriminate | reflexivity]. Qed.

Lemma usize_add_1 (p : N) :
  (p + 1 < usize_modulus)%N -> usize_add p 1 = (p + 1)%N.
Proof. intros H. unfold usize_add. now apply N.mod_small. Qed.

Lemma Flag_parse_name (f : Flag) : name (Flag_parse f) = name f.
Proof. unfold Flag_parse. now destruct (negb (empty (arg f))). Qed.

Lemma Flag_parse_pos (f : Flag) : pos (Flag_parse f) = pos f.
Proof. unfold Flag_parse. now destruct (negb (empty (arg f))). Qed.

Lemma StronglySorted_snoc (l : list N) (y : N) :
  StronglySorted N.lt l -> Forall (fun x => (x < y)%N) l ->
  StronglySorted N.lt (l ++ [y]).
Proof.
  induction 1 as [|x l Hl IH Hx]; intros Hy; simpl.
  - repeat constructor.
  - inversion Hy as [|? ? Hxy Hy']; subst.
    constructor; [now apply IH|].
    apply Forall_app; split; [assumption | repeat constructor; assumption].
Qed.

(** ** The instruction builder *)

(** What holds of [position], [flags] and [flag] before every token: the
    flags pushed so far have increasing positions, and either none was
    started yet, or the one under construction comes after all of them and
    before [position]. *)
Definition builder_inv (position : N) (flags : list Flag) (flag : Flag) : Prop :=
  StronglySorted N.lt (map pos flags) /\
  (if Flag_exists flag
   then (pos flag < position)%N /\ Forall (fun x => (x < pos flag)%N) (map pos flags)
   else flags = []).

Lemma builder_inv_push (position : N) (flags : list Flag) (flag : Flag) :
  builder_inv position flags flag ->
  StronglySorted N.lt (map pos (flags ++ [Flag_parse flag])).
Proof.
  intros [Hs Hf]. rewrite map_app. simpl. rewrite Flag_parse_pos.
  destruct (Flag_exists flag).
  - apply StronglySorted_snoc; tauto.
  - subst flags. simpl. repeat constructor.
Qed.

Lemma from_vec_string_loop_sorted (uninit : N) (vec_s : list string) :
  forall position flags flag,
    (position + N.of_nat (length vec_s) < usize_modulus)%N ->
    builder_inv position flags flag ->
    StronglySorted N.lt
      (map pos (from_vec_string_loop uninit vec_s position flags flag)).
Proof.
  induction vec_s as [|token rest IH]; intros position flags flag Hlen Hinv.
  - simpl. apply Hinv.
  - assert (Hrest : forall p, (p <= position + 1)%N ->
              (p + N.of_nat (length rest) < usize_modulus)%N).
    { intros p Hp. simpl length in Hlen. lia. }
    assert (Hwrap : usize_add position 1 = (position + 1)%N).
    { apply usize_add_1. simpl length in Hlen. lia. }
    simpl. destruct (empty token) eqn:Htok.
    { apply IH; [apply Hrest; lia | exact Hinv]. }
    assert (Hnext : forall position' flags' flag',
              (position' <= position + 1)%N ->
              builder_inv position' flags' flag' ->
              StronglySorted N.lt
                (map pos
                   (from_vec_string_loop uninit rest position'
                      match rest with
                      | [] => flags' ++ [Flag_parse flag']
                      | _ :: _ => flags'
                      end flag'))).
    { intros position' flags' flag' Hp Hinv'. destruct rest as [|token' rest'].
      - simpl. eapply builder_inv_push; eassumption.
      - apply IH; [apply Hrest; exact Hp | exact Hinv']. }
    destruct Hinv as [Hs Hf].
    destruct (is_flag_token token) eqn:Hflag.
    + rewrite Hwrap.
      assert (Hex : forall f, Flag_exists (set_pos position (set_name token f)) = true).
      { intros f. unfold Flag_exists. simpl. now rewrite Htok. }
      destruct (Flag_exists flag) eqn:Hexists.
      * apply Hnext; [lia|]. destruct Hf as [Hlt Hall].
        split.
        -- rewrite map_app. simpl. rewrite Flag_parse_pos.
           apply StronglySorted_snoc; assumption.
        -- rewrite Hex. simpl. split; [lia|].
           rewrite map_app. apply Forall_app. split.
           ++ eapply Forall_impl; [|exact Hall]. simpl. intros; lia.
           ++ simpl. rewrite Flag_parse_pos. repeat constructor. exact Hlt.
      * apply Hnext; [lia|]. subst flags. split; [constructor|].
        rewrite Hex. simpl. split; [lia | constructor].
    + destruct (Flag_exists flag) eqn:Hexists.
      * apply Hnext; [lia|]. split; [exact Hs|].
        unfold Flag_exists in *. simpl. rewrite Hexists. exact Hf.
      * apply Hnext; [lia|]. split; [exact Hs|]. rewrite Hexists. exact Hf.
Qed.

(** C7. The flags built from any token sequence (of a length a [usize] can
    hold) carry strictly increasing positions from one flag to the next, in
    the order they appear. *)
Theorem from_vec_string_positions_increase (uninit : N) (vec_s : list string) :
  (N.of_nat (length vec_s) < usize_modulus)%N ->
  StronglySorted N.lt (map pos (from_vec_string uninit vec_s)).
Proof.
  intros Hlen. unfold from_vec_string.
  apply from_vec_string_loop_sorted.
  - lia.
  - split; [constructor | reflexivity].
Qed.

Lemma from_vec_string_positions_increase_witness :
  StronglySorted N.lt
    (map pos (from_vec_string 7 ["notes"; "-f"; "a.txt"; ""; "-l"; "-s"; "-w"])).
Proof.
  apply from_vec_string_positions_increase. vm_compute. reflexivity.
Defined.

(** The current flag of the specification, read off the variable [flag] of the
    code: a flag without a name stands for the absent one. *)
Definition current_of (flag : Flag) : option Flag :=
  if Flag_exists flag then Some flag else None.

Lemma from_vec_string_loop_refines (uninit : N) (vec_s : list string) :
  forall position flags flag,
    last vec_s "" <> "" ->
    (position + N.of_nat (length vec_s) < usize_modulus)%N ->
    (Flag_exists flag = false -> arg flag = "" /\ mod_ flag = 0%Z) ->
    Flag_exists flag = true \/ existsb is_flag_token vec_s = true ->
    from_vec_string_loop uninit vec_s position flags flag
    = flags ++ spec_build_loop vec_s position (current_of flag).
Proof.
  induction vec_s as [|token rest IH]; intros position flags flag Hlast Hlen Hnew Hsome.
  - simpl in Hlast. congruence.
  - assert (Hwrap : usize_add position 1 = (position + 1)%N).
    { apply usize_add_1. simpl length in Hlen. lia. }
    simpl from_vec_string_loop. simpl spec_build_loop.
    destruct (empty token) eqn:Htok.
    { destruct rest as [|token' rest'].
      - simpl in Hlast. apply empty_true in Htok. congruence.
      - apply IH.
        + exact Hlast.
        + simpl length in *. lia.
        + exact Hnew.
        + destruct Hsome as [H|H]; [now left|]. right.
          simpl in H. destruct (is_flag_token token) eqn:E; [|exact H].
          apply is_flag_token_not_empty in E. congruence. }
    assert (Hnext : forall position' flags' flag',
              (position' <= position + 1)%N ->
              Flag_exists flag' = true ->
              from_vec_string_loop uninit rest position'
                match rest with
                | [] => flags' ++ [Flag_parse flag']
                | _ :: _ => flags'
                end flag'
              = flags' ++ spec_build_loop rest position' (Some flag')).
    { intros position' flags' flag' Hp Hex. destruct rest as [|token' rest'].
      - reflexivity.
      - rewrite IH.
        + unfold current_of. now rewrite Hex.
        + exact Hlast.
        + simpl length in *. lia.
        + intros E. congruence.
        + now left. }
    assert (Hex : forall f, Flag_exists (set_pos position (set_name token f)) = true).
    { intros f. unfold Flag_exists. simpl. now rewrite Htok. }
    unfold current_of.
    destruct (is_flag_token token) eqn:Hflag.
    + rewrite Hwrap. destruct (Flag_exists flag) eqn:Hexists.
      * rewrite Hnext; [|lia|apply Hex]. simpl. now rewrite <- app_assoc.
      * rewrite Hnext; [|lia|apply Hex].
        destruct (Hnew eq_refl) as [Ha Hm].
        unfold set_pos, set_name. simpl. now rewrite Ha, Hm.
    + destruct (Flag_exists flag) eqn:Hexists.
      * rewrite Hnext; [reflexivity|lia|].
        unfold Flag_exists in *. simpl. exact Hexists.
      * destruct Hsome as [H|H]; [discriminate|].
        simpl in H. rewrite Hflag in H. simpl in H.
        destruct rest as [|token' rest']; [discriminate|].
        rewrite IH.
        -- unfold current_of. now rewrite Hexists.
        -- exact Hlast.
        -- simpl length in *. lia.
        -- intros _. exact (Hnew eq_refl).
        -- now right.
Qed.

Lemma from_vec_string_loop_all_empty (uninit : N) (vec_s : list string) :
  forall position flags flag,
    forallb empty vec_s = true ->
    from_vec_string_loop uninit vec_s position flags flag = flags.
Proof.
  induction vec_s as [|token rest IH]; intros position flags flag H; simpl.
  - reflexivity.
  - simpl in H. apply andb_prop in H. destruct H as [H1 H2].
    rewrite H1. now apply IH.
Qed.

Lemma spec_build_loop_all_empty (vec_s : list string) :
  forall counter current,
    forallb empty vec_s = true ->
    spec_build_loop vec_s counter current = spec_finalize current.
Proof.
  induction vec_s as [|token rest IH]; intros counter current H; simpl.
  - reflexivity.
  - simpl in H. apply andb_prop in H. destruct H as [H1 H2].
    rewrite H1. now apply IH.
Qed.

(** The builder of the specification does skip empty tokens and does drop
    the tokens that come before the first flag token. *)
Lemma spec_build_loop_skips_empty_tokens (tokens : list string) :
  forall counter current,
    spec_build_loop (filter (fun token => negb (empty token)) tokens) counter current
    = spec_build_loop tokens counter current.
Proof.
  induction tokens as [|token rest IH]; intros counter current; simpl.
  - reflexivity.
  - destruct (empty token) eqn:Htok; simpl; [apply IH|].
    rewrite Htok. destruct (is_flag_token token).
    + now rewrite IH.
    + destruct current; apply IH.
Qed.

Lemma spec_build_drops_leading_tokens (before tokens : list string) :
  Forall (fun token => is_flag_token token = false) before ->
  spec_build (before ++ tokens) = spec_build tokens.
Proof.
  unfold spec_build. induction 1 as [|token before Htok _ IH]; simpl.
  - reflexivity.
  - rewrite Htok. now destruct (empty token).
Qed.

(** C6, as the code has it. On a token sequence that holds a flag token and
    ends in a non-empty token, the builder does what the specification
    words: empty tokens are skipped wherever they stand (an empty first
    token among them), tokens before the first flag token are dropped, and
    the flag under construction at the end of the input is finalized and
    pushed. On a sequence of empty tokens only, or of none, the instruction
    is empty. *)
Theorem from_vec_string_builds (uninit : N) (vec_s : list string) :
  (N.of_nat (length vec_s) < usize_modulus)%N ->
  (last vec_s "" <> "" /\ existsb is_flag_token vec_s = true ->
   from_vec_string uninit vec_s = spec_build vec_s)
  /\ (forallb empty vec_s = true -> from_vec_string uninit vec_s = []).
Proof.
  intros Hlen. unfold from_vec_string, spec_build. split.
  - intros [Hlast Hflag]. rewrite from_vec_string_loop_refines.
    + reflexivity.
    + exact Hlast.
    + lia.
    + intros _. split; reflexivity.
    + now right.
  - intros Hempty. now apply from_vec_string_loop_all_empty.
Qed.

Lemma from_vec_string_builds_witness :
  from_vec_string 7 [""; "notes"; "-f"; "a"; ""; "b"; "-w"]
  = spec_build [""; "notes"; "-f"; "a"; ""; "b"; "-w"].
Proof.
  apply (from_vec_string_builds 7 [""; "notes"; "-f"; "a"; ""; "b"; "-w"]).
  - vm_compute. reflexivity.
  - split; [discriminate | reflexivity].
Defined.

(** The instruction of the witness. *)
Example from_vec_string_sample :
  from_vec_string 7 [""; "notes"; "-f"; "a"; ""; "b"; "-w"]
  = [{| name := "-f"; arg := "a b"; pos := 0; mod_ := 0 |};
     {| name := "-w"; arg := ""; pos := 1; mod_ := 0 |}].
Proof. reflexivity. Qed.

(** C6, as the claim has it: a sequence whose first token is empty does not
    yield an empty instruction. *)
Lemma from_vec_string_empty_first_token :
  from_vec_string 0 [""; "-w"]
  = [{| name := "-w"; arg := ""; pos := 0; mod_ := 0 |}]
  /\ from_vec_string 0 [""; "-w"] <> [].
Proof. split; [reflexivity | discriminate]. Qed.

(** Two slips of the loop, outside what the theorem above covers. The
    [continue] taken on an empty token skips the test for the last index, so
    a trailing empty token loses the flag under construction; and that test
    pushes the flag without asking whether it exists, so a sequence without
    flag tokens that ends in a non-empty token yields one flag without a
    name, at the indeterminate position. *)
Example from_vec_string_trailing_empty_token :
  from_vec_string 0 ["-f"; "a.txt"; "-w"; ""]
  = [{| name := "-f"; arg := "a.txt"; pos := 0; mod_ := 0 |}].
Proof. reflexivity. Qed.

Example from_vec_string_no_flag_token (uninit : N) :
  from_vec_string uninit ["hello"] = [Flag_new uninit].
Proof. reflexivity. Qed.




(** The first flag of an instruction, when it has a name, is at position 0. *)
Definition first_at_zero (flags : list Flag) : Prop :=
  match flags with
  | [] => True
  | flag :: _ => Flag_exists flag = true -> pos flag = 0%N
  end.

Lemma from_vec_string_loop_first (uninit : N) (vec_s : list string) :
  forall position flags flag,
    first_at_zero flags ->
    (flags = [] ->
     if Flag_exists flag then pos flag = 0%N else position = 0%N) ->
    first_at_zero (from_vec_string_loop uninit vec_s position flags flag).
Proof.
  induction vec_s as [|token rest IH]; intros position flags flag Hfirst Hflag.
  - exact Hfirst.
  - simpl. destruct (empty token) eqn:Htok; [now apply IH|].
    assert (Hnext : forall position' flags' flag',
              first_at_zero (flags' ++ [Flag_parse flag']) ->
              first_at_zero flags' ->
              (flags' = [] ->
               if Flag_exists flag' then pos flag' = 0%N else position' = 0%N) ->
              first_at_zero
                (from_vec_string_loop uninit rest position'
                   match rest with
                   | [] => flags' ++ [Flag_parse flag']
                   | _ :: _ => flags'
                   end flag')).
    { intros position' flags' flag' H1 H2 H3.
      destruct rest; [exact H1 | now apply IH]. }
    assert (Hsnoc : forall (l : list Flag) f f',
              first_at_zero (l ++ [f]) -> first_at_zero ((l ++ [f]) ++ [f'])).
    { intros l f f'. destruct l; simpl; auto. }
    assert (Hpush : forall l f,
              first_at_zero l ->
              (l = [] -> Flag_exists f = true -> pos f = 0%N) ->
              first_at_zero (l ++ [Flag_parse f])).
    { intros l f Hl Hf. destruct l as [|x l]; simpl; [|exact Hl].
      unfold Flag_exists. rewrite Flag_parse_name, Flag_parse_pos. now apply Hf. }
    assert (Hex : forall f, Flag_exists (set_pos position (set_name token f)) = true).
    { intros f. unfold Flag_exists. simpl. now rewrite Htok. }
    destruct (is_flag_token token) eqn:Hft.
    + destruct (Flag_exists flag) eqn:Hexists.
      * assert (H1 : first_at_zero (flags ++ [Flag_parse flag])).
        { apply Hpush; [exact Hfirst|]. intros E _. now apply Hflag. }
        apply Hnext; [now apply Hsnoc | exact H1 |].
        intros E. destruct flags; discriminate.
      * apply Hnext.
        -- apply Hpush; [exact Hfirst|]. intros E _. simpl. now apply Hflag.
        -- exact Hfirst.
        -- intros E. rewrite Hex. simpl. now apply Hflag.
    + destruct (Flag_exists flag) eqn:Hexists.
      * apply Hnext.
        -- apply Hpush; [exact Hfirst|]. intros E _. simpl. now apply Hflag.
        -- exact Hfirst.
        -- intros E. unfold Flag_exists in *. simpl. rewrite Hexists. now apply Hflag.
      * apply Hnext.
        -- apply Hpush; [exact Hfirst|]. intros E H. congruence.
        -- exact Hfirst.
        -- intros E. rewrite Hexists. now apply Hflag.
Qed.

Lemma from_vec_string_first (uninit : N) (vec_s : list string) :
  first_at_zero (from_vec_string uninit vec_s).
Proof.
  unfold from_vec_string. apply from_vec_string_loop_first.
  - exact I.
  - intros _. reflexivity.
Qed.

(** ** The holder: resolution does not depend on the order of the visit *)

Lemma caller_inj (a b : Command) : caller a = caller b -> a = b.
Proof. destruct a, b; simpl; intros H; try reflexivity; discriminate H. Qed.

Lemma alias_inj (a b : Command) : alias a = alias b -> a = b.
Proof. destruct a, b; simpl; intros H; try reflexivity; discriminate H. Qed.

Lemma caller_not_alias (a b : Command) : caller a <> alias b.
Proof. destruct a, b; discriminate. Qed.



Lemma in_combine_seq {A : Type} (l : list A) :
  forall a i x,
    In (i, x) (combine (seq a (length l)) l) <->
    (a <= i)%nat /\ nth_error l (i - a) = Some x.
Proof.
  induction l as [|y l IH]; intros a i x; simpl.
  - split; [tauto|]. intros [_ H]. destruct (i - a)%nat; discriminate.
  - rewrite IH. split.
    + intros [H|[H1 H2]].
      * inversion H; subst. rewrite Nat.sub_diag. split; [lia | reflexivity].
      * split; [lia|]. replace (i - a)%nat with (S (i - S a)) by lia. exact H2.
    + intros [H1 H2]. destruct (i - a)%nat as [|k] eqn:E.
      * left. inversion H2; subst. f_equal. lia.
      * right. split; [lia|]. replace (i - S a)%nat with k by lia. exact H2.
Qed.

Lemma in_indexed {A : Type} (l : list A) (i : nat) (x : A) :
  In (i, x) (indexed l) <-> nth_error l i = Some x.
Proof.
  unfold indexed. rewrite in_combine_seq, Nat.sub_0_r.
  split; [tauto | intros H; split; [lia | exact H]].
Qed.

Lemma lookup_id_none (std : StdLib) (h : CommandsHolder)
    (m : list (nat * string)) (key : string) :
  (forall i s, In (i, s) m -> s <> key) ->
  lookup_id std h m key = None.
Proof.
  intros H. unfold lookup_id.
  destruct (find _ _) as [[i s]|] eqn:E; [|reflexivity].
  apply find_some in E. destruct E as [Hin Hs]. simpl in Hs.
  apply String.eqb_eq in Hs.
  apply (Permutation_in _ (iter_names_perm std m)) in Hin.
  now apply H in Hin.
Qed.

Lemma lookup_id_some (std : StdLib) (h : CommandsHolder)
    (m : list (nat * string)) (key : string) (i : nat) :
  In (i, key) m ->
  exists j, In (j, key) m /\ lookup_id std h m key = nth_error h j.
Proof.
  intros Hin. unfold lookup_id.
  destruct (find _ _) as [[j s]|] eqn:E.
  - apply find_some in E. destruct E as [Hj Hs]. simpl in Hs.
    apply String.eqb_eq in Hs. subst s.
    apply (Permutation_in _ (iter_names_perm std m)) in Hj.
    exists j. split; [exact Hj | reflexivity].
  - apply (Permutation_in _ (Permutation_sym (iter_names_perm std m))) in Hin.
    eapply find_none in E; [|exact Hin]. simpl in E.
    rewrite String.eqb_refl in E. discriminate.
Qed.

Lemma get_by_caller_in (std : StdLib) (h : CommandsHolder) (c : Command) :
  In c h -> get_by_caller std h (caller c) = Some c.
Proof.
  intros Hin. apply In_nth_error in Hin. destruct Hin as [i Hi].
  unfold get_by_caller.
  destruct (lookup_id_some std h (callers h) (caller c) i) as [j [Hj ->]].
  - apply in_indexed. rewrite nth_error_map, Hi. reflexivity.
  - apply in_indexed in Hj. rewrite nth_error_map in Hj.
    destruct (nth_error h j) as [c'|]; [|discriminate].
    simpl in Hj. inversion Hj as [E]. now apply caller_inj in E; subst.
Qed.

Lemma get_by_alias_in (std : StdLib) (h : CommandsHolder) (c : Command) :
  In c h -> get_by_alias std h (alias c) = Some c.
Proof.
  intros Hin. apply In_nth_error in Hin. destruct Hin as [i Hi].
  unfold get_by_alias.
  destruct (lookup_id_some std h (aliases h) (alias c) i) as [j [Hj ->]].
  - apply in_indexed. rewrite nth_error_map, Hi. reflexivity.
  - apply in_indexed in Hj. rewrite nth_error_map in Hj.
    destruct (nth_error h j) as [c'|]; [|discriminate].
    simpl in Hj. inversion Hj as [E]. now apply alias_inj in E; subst.
Qed.

Lemma get_by_caller_none (std : StdLib) (h : CommandsHolder) (n : string) :
  (forall c, caller c <> n) -> get_by_caller std h n = None.
Proof.
  intros H. apply lookup_id_none. intros i s Hin.
  apply in_indexed in Hin. rewrite nth_error_map in Hin.
  destruct (nth_error h i) as [c|]; [|discriminate].
  inversion Hin; subst. apply H.
Qed.


Lemma resolve_caller (std : StdLib) (h : CommandsHolder) (c : Command) :
  In c h -> resolve std h (caller c) = Some c.
Proof. intros H. unfold resolve. now rewrite get_by_caller_in. Qed.

Lemma resolve_alias (std : StdLib) (h : CommandsHolder) (c : Command) :
  In c h -> resolve std h (alias c) = Some c.
Proof.
  intros H. unfold resolve. rewrite get_by_caller_none.
  - now apply get_by_alias_in.
  - intros c' E. now apply caller_not_alias in E.
Qed.


Lemma in_create_engine (c : Command) : In c (commands create_engine).
Proof. destruct c; vm_compute; tauto. Qed.

(** ** What [validate] leaves alone *)

Lemma update_flag_ptr_names (inst : Instruction) (index : N) (v : Z) :
  map name (update_flag_ptr inst index v) = map name inst.
Proof.
  induction inst as [|flag inst IH]; simpl; [reflexivity|].
  destruct (pos flag =? index)%N; simpl; [reflexivity | now rewrite IH].
Qed.

(** Case analysis on every [match] and [if] a hypothesis or the goal is
    stuck on. *)
Ltac break_match_in H :=
  repeat match type of H with
         | context [match ?x with _ => _ end] => destruct x
         end.

Ltac break_match :=
  repeat match goal with
         | |- context [match ?x with _ => _ end] => destruct x
         end.

Lemma validate_keeps (fs : FileSystem) (c : Command) (flag : Flag)
    (inst : Instruction) (ops : Operations) :
  forall output inst' ops',
    validate fs c flag inst ops = (output, inst', ops') ->
    is_panicked ops' = is_panicked ops /\ map name inst' = map name inst.
Proof.
  intros output inst' ops' H. destruct c; simpl in H; break_match_in H;
    inversion H; subst; simpl; auto using update_flag_ptr_names.
Qed.

(** ** The validation loop *)

(** A property kept by each of the three ways a turn can end holds when the
    loop is left. *)
Lemma validation_loop_preserves (P : Validation -> Prop)
    (std : StdLib) (fs : FileSystem) (h : CommandsHolder) :
  (forall st i flag command output inst ops,
      P st ->
      nth_error (v_inst st) i = Some flag ->
      resolve std h (name flag) = Some command ->
      validate fs command flag (v_inst st) (v_operations st) = (output, inst, ops) ->
      is_err output = false ->
      P (record_validated st command flag inst ops)) ->
  (forall st i flag command output inst ops,
      P st ->
      nth_error (v_inst st) i = Some flag ->
      resolve std h (name flag) = Some command ->
      validate fs command flag (v_inst st) (v_operations st) = (output, inst, ops) ->
      is_err output = true ->
      P (stop_on_error st output inst ops)) ->
  (forall st i flag,
      P st ->
      nth_error (v_inst st) i = Some flag ->
      resolve std h (name flag) = None ->
      P (stop_on_invalid_flag st flag)) ->
  forall n i st, P st -> P (validation_loop std fs h n i st).
Proof.
  intros Hok Herr Hinv. induction n as [|n IH]; intros i st Hst; simpl.
  - exact Hst.
  - unfold get_flags. destruct (nth_error (v_inst st) i) as [flag|] eqn:Hnth; [|exact Hst].
    destruct (resolve std h (name flag)) as [command|] eqn:Hres.
    + destruct (validate fs command flag (v_inst st) (v_operations st))
        as [[output inst] ops] eqn:Hval.
      destruct (is_err output) eqn:Hout.
      * eapply Herr; eassumption.
      * apply IH. eapply Hok; eassumption.
    + eapply Hinv; eassumption.
Qed.

(** The flag a command was validated with last, in a list of calls. *)
Fixpoint last_binding (c : Command) (calls : list (Command * Flag)) : option Flag :=
  match calls with
  | [] => None
  | (k, v) :: rest =>
      match last_binding c rest with
      | Some f => Some f
      | None => if Command_eqb k c then Some v else None
      end
  end.

Lemma Command_eqb_eq (a b : Command) : Command_eqb a b = true <-> a = b.
Proof. unfold Command_eqb. destruct (Command_eq_dec a b); split; congruence. Qed.

Lemma Command_eqb_refl (a : Command) : Command_eqb a a = true.
Proof. now apply Command_eqb_eq. Qed.

Lemma Command_eqb_neq (a b : Command) : Command_eqb a b = false <-> a <> b.
Proof. unfold Command_eqb. destruct (Command_eq_dec a b); split; congruence. Qed.

Lemma last_binding_app (c : Command) (l1 l2 : list (Command * Flag)) :
  last_binding c (l1 ++ l2)
  = match last_binding c l2 with
    | Some f => Some f
    | None => last_binding c l1
    end.
Proof.
  induction l1 as [|[k v] l1 IH]; simpl.
  - now destruct (last_binding c l2).
  - rewrite IH. now destruct (last_binding c l2).
Qed.

Lemma last_binding_none (c : Command) (l : list (Command * Flag)) :
  last_binding c l = None <-> ~ In c (map fst l).
Proof.
  induction l as [|[k v] l IH]; simpl.
  - tauto.
  - destruct (last_binding c l) as [f|].
    + split; [discriminate|]. intros H. exfalso. apply H. right.
      destruct IH as [_ IH]. destruct (in_dec Command_eq_dec c (map fst l)) as [Hin|Hin];
        [exact Hin | now apply IH in Hin].
    + destruct (Command_eqb k c) eqn:E.
      * apply Command_eqb_eq in E. split; [discriminate|]. intros H. exfalso. apply H. now left.
      * apply Command_eqb_neq in E. split; [|reflexivity].
        intros _ [H|H]; [contradiction|]. now apply IH in H.
Qed.

Lemma last_binding_in (c : Command) (f : Flag) (l : list (Command * Flag)) :
  last_binding c l = Some f -> In (c, f) l.
Proof.
  induction l as [|[k v] l IH]; simpl; [discriminate|].
  destruct (last_binding c l) as [f'|].
  - intros H. inversion H; subst. right. now apply IH.
  - destruct (Command_eqb k c) eqn:E; [|discriminate].
    apply Command_eqb_eq in E. intros H. inversion H; subst. now left.
Qed.

(** The map of validated commands holds, for every command validated, the
    flag it was validated with last, once. *)
Definition map_of_calls (m calls : list (Command * Flag)) : Prop :=
  NoDup (map fst m) /\
  forall c f, In (c, f) m <-> last_binding c calls = Some f.

Lemma hm_assign_keys (m : list (Command * Flag)) (c : Command) (f : Flag) :
  forall k, In k (map fst (hm_assign m c f)) <-> k = c \/ In k (map fst m).
Proof.
  induction m as [|[k' v'] m IH]; intros k; simpl.
  - intuition.
  - destruct (Command_eqb k' c) eqn:E; simpl.
    + apply Command_eqb_eq in E. subst. intuition.
    + rewrite IH. intuition.
Qed.

Lemma hm_assign_nodup (m : list (Command * Flag)) (c : Command) (f : Flag) :
  NoDup (map fst m) -> NoDup (map fst (hm_assign m c f)).
Proof.
  induction m as [|[k' v'] m IH]; simpl; intros H.
  - repeat constructor. intros [].
  - inversion H as [|? ? Hk Hm]; subst.
    destruct (Command_eqb k' c) eqn:E; simpl.
    + constructor; assumption.
    + constructor; [|now apply IH].
      rewrite hm_assign_keys. apply Command_eqb_neq in E. intuition.
Qed.

Lemma hm_assign_in (m : list (Command * Flag)) (c : Command) (f : Flag) :
  NoDup (map fst m) ->
  forall k v,
    In (k, v) (hm_assign m c f) <->
    (k = c /\ v = f) \/ (k <> c /\ In (k, v) m).
Proof.
  induction m as [|[k' v'] m IH]; simpl; intros H k v.
  - split.
    + intros [E|[]]. inversion E. now left.
    + intros [[-> ->]|[_ []]]. now left.
  - inversion H as [|? ? Hk Hm]; subst.
    destruct (Command_eqb k' c) eqn:E; simpl.
    + apply Command_eqb_eq in E. subst k'. split.
      * intros [E|Hin].
        -- inversion E. now left.
        -- right. split; [|now right]. intros ->.
           apply Hk. change c with (fst (c, v)). now apply in_map.
      * intros [[-> ->]|[Hne [E|Hin]]].
        -- now left.
        -- inversion E. congruence.
        -- now right.
    + apply Command_eqb_neq in E. rewrite (IH Hm). split.
      * intros [E'|[[-> ->]|[Hne Hin]]].
        -- inversion E'; subst. right. split; [exact E | now left].
        -- now left.
        -- right. split; [exact Hne | now right].
      * intros [[-> ->]|[Hne [E'|Hin]]].
        -- right. now left.
        -- now left.
        -- right. right. split; assumption.
Qed.

Lemma map_of_calls_assign (m calls : list (Command * Flag)) (c : Command) (f : Flag) :
  map_of_calls m calls ->
  map_of_calls (hm_assign m c f) (calls ++ [(c, f)]).
Proof.
  intros [Hnd Hin]. split; [now apply hm_assign_nodup|].
  intros k v. rewrite (hm_assign_in m c f Hnd), last_binding_app. simpl.
  destruct (Command_eqb c k) eqn:E.
  - apply Command_eqb_eq in E. subst k. split.
    + intros [[_ ->]|[Hne _]]; [reflexivity | congruence].
    + intros H. inversion H. now left.
  - apply Command_eqb_neq in E. rewrite <- Hin. split.
    + intros [[-> _]|[_ H]]; [congruence | exact H].
    + intros H. right. split; [congruence | exact H].
Qed.

Lemma validation_pass_map (std : StdLib) (fs : FileSystem) (e : Engine)
    (inst : Instruction) :
  map_of_calls (validated_commands (validation_pass std fs e inst))
               (validate_calls (validation_pass std fs e inst)).
Proof.
  unfold validation_pass.
  apply (validation_loop_preserves
           (fun st => map_of_calls (validated_commands st) (validate_calls st))).
  - intros st i flag command output inst' ops H _ _ _ _. simpl.
    now apply map_of_calls_assign.
  - intros st i flag command output inst' ops H _ _ _ _. exact H.
  - intros st i flag H _ _. exact H.
  - simpl. split; [constructor|]. intros c f. simpl. split; [tauto | discriminate].
Qed.

(** The command resolved for a name is the registered command with that
    caller, or else with that alias, whatever the order of the visit. *)
Lemma get_by_caller_find (std : StdLib) (h : CommandsHolder) (n : string) :
  get_by_caller std h n = find (fun c => String.eqb (caller c) n) h.
Proof.
  destruct (find _ h) as [c|] eqn:E.
  - apply find_some in E. destruct E as [Hin Hc].
    apply String.eqb_eq in Hc. subst n. now apply get_by_caller_in.
  - apply lookup_id_none. intros i s Hin ->.
    apply in_indexed in Hin. rewrite nth_error_map in Hin.
    destruct (nth_error h i) as [c|] eqn:Hc; [|discriminate].
    apply nth_error_In in Hc. eapply find_none in E; [|exact Hc].
    simpl in E. inversion Hin as [Hs]. rewrite Hs, String.eqb_refl in E. discriminate.
Qed.

Lemma get_by_alias_find (std : StdLib) (h : CommandsHolder) (n : string) :
  get_by_alias std h n = find (fun c => String.eqb (alias c) n) h.
Proof.
  destruct (find _ h) as [c|] eqn:E.
  - apply find_some in E. destruct E as [Hin Hc].
    apply String.eqb_eq in Hc. subst n. now apply get_by_alias_in.
  - apply lookup_id_none. intros i s Hin ->.
    apply in_indexed in Hin. rewrite nth_error_map in Hin.
    destruct (nth_error h i) as [c|] eqn:Hc; [|discriminate].
    apply nth_error_In in Hc. eapply find_none in E; [|exact Hc].
    simpl in E. inversion Hin as [Hs]. rewrite Hs, String.eqb_refl in E. discriminate.
Qed.


(** The command a flag name resolves to does not depend on the order in
    which the maps of the holder are visited. *)
Theorem resolution_ignores_iteration_order (std std' : StdLib)
    (h : CommandsHolder) (n : string) :
  resolve std h n = resolve std' h n.
Proof.
  unfold resolve.
  rewrite (get_by_caller_find std), (get_by_caller_find std').
  destruct (find (fun c => String.eqb (caller c) n) h); [reflexivity|].
  now rewrite (get_by_alias_find std), (get_by_alias_find std').
Qed.



(** ** The execution pass *)

Lemma source_check_maps (v : Validation) :
  validated_commands (source_check v) = validated_commands v
  /\ validate_calls (source_check v) = validate_calls v.
Proof. unfold source_check. destruct (_ && _); split; reflexivity. Qed.

(** What one call of the execution loop pushes. *)
Definition pushed (std : StdLib) (fs : FileSystem) (ops : Operations)
    (call : Command * Flag) : list Output :=
  let output := execute std fs (fst call) (snd call) ops in
  if negb (empty (get_message output)) then [output] else [].

Lemma execution_turns (std : StdLib) (fs : FileSystem) (ops : Operations)
    (calls : list (Command * Flag)) :
  forall outs made,
    fold_left (execution_turn std fs ops) calls (outs, made)
    = (outs ++ flat_map (pushed std fs ops) calls, made ++ calls).
Proof.
  induction calls as [|call calls IH]; intros outs made; simpl.
  - now rewrite !app_nil_r.
  - unfold execution_turn at 2. simpl fst. simpl snd. rewrite IH.
    unfold pushed at 2.
    destruct (negb _); simpl; now rewrite <- !app_assoc.
Qed.

Lemma execution_loop_pushed (std : StdLib) (fs : FileSystem) (ops : Operations)
    (calls : list (Command * Flag)) (outs : list Output) :
  fst (execution_loop std fs ops calls outs)
  = outs ++ flat_map (pushed std fs ops) calls.
Proof. unfold execution_loop. now rewrite execution_turns. Qed.

Lemma execution_loop_calls (std : StdLib) (fs : FileSystem) (ops : Operations)
    (calls : list (Command * Flag)) (outs : list Output) :
  snd (execution_loop std fs ops calls outs) = calls.
Proof. unfold execution_loop. now rewrite execution_turns. Qed.

Lemma dispatch_executed (std : StdLib) (fs : FileSystem) (e : Engine)
    (inst : Instruction) (calls : list (Command * Flag)) :
  t_executed (dispatch std fs e inst) = Some calls ->
  calls = iter_validated std (validated_commands (validation_pass std fs e inst))
  /\ is_panicked (v_operations (source_check (validation_pass std fs e inst))) = false.
Proof.
  unfold dispatch.
  destruct (is_panicked _) eqn:E; simpl; [discriminate|].
  intros H. inversion H. split; [|reflexivity].
  now rewrite execution_loop_calls, (proj1 (source_check_maps _)).
Qed.

Lemma dispatch_validated (std : StdLib) (fs : FileSystem) (e : Engine)
    (inst : Instruction) :
  t_validated (dispatch std fs e inst)
  = validate_calls (validation_pass std fs e inst).
Proof.
  unfold dispatch. destruct (is_panicked _); simpl;
    apply (proj2 (source_check_maps _)).
Qed.

Lemma execute_trace_executed (std : StdLib) (fs : FileSystem) (uninit : N)
    (raw_args : list string) (e : Engine) (t : Trace)
    (calls : list (Command * Flag)) :
  execute_trace std fs uninit raw_args e = Some t ->
  t_executed t = Some calls ->
  exists inst,
    working_instruction fs uninit raw_args e = Some (inl inst)
    /\ t = dispatch std fs e inst.
Proof.
  unfold execute_trace.
  destruct (working_instruction fs uninit raw_args e) as [[inst|early]|] eqn:Hw;
    intros Ht Hc; inversion Ht; subst.
  - exists inst. split; reflexivity.
  - unfold working_instruction in Hw.
    destruct (flag_exists _ _ _); [|discriminate].
    destruct (negb _); [inversion Hw; subst; discriminate|].
    destruct (get_flag_ptr _ _); [|discriminate].
    destruct (Flag_is_empty _); [inversion Hw; subst; discriminate|].
    destruct (negb _); inversion Hw; subst; discriminate.
Qed.

(** The calls of the execution pass against the calls validated. *)
Lemma executed_map_of_calls (std : StdLib) (fs : FileSystem) (uninit : N)
    (raw_args : list string) (e : Engine) (t : Trace)
    (calls : list (Command * Flag)) :
  execute_trace std fs uninit raw_args e = Some t ->
  t_executed t = Some calls ->
  map_of_calls calls (t_validated t).
Proof.
  intros Ht Hc.
  destruct (execute_trace_executed _ _ _ _ _ _ _ Ht Hc) as [inst [_ ->]].
  rewrite dispatch_validated.
  apply dispatch_executed in Hc. destruct Hc as [-> _].
  destruct (validation_pass_map std fs e inst) as [Hnd Hin].
  pose proof (iter_validated_perm std
                (validated_commands (validation_pass std fs e inst))) as Hperm.
  split.
  - eapply Permutation_NoDup; [|exact Hnd].
    apply Permutation_map, Permutation_sym, Hperm.
  - intros c f. rewrite <- Hin. split; apply Permutation_in;
      [exact Hperm | apply Permutation_sym, Hperm].
Qed.

Lemma filter_key_single (calls : list (Command * Flag)) (c : Command) (f : Flag) :
  NoDup (map fst calls) ->
  In (c, f) calls ->
  filter (fun call => Command_eqb (fst call) c) calls = [(c, f)].
Proof.
  induction calls as [|[k v] calls IH]; simpl; intros Hnd Hin; [contradiction|].
  inversion Hnd as [|? ? Hk Hrest]; subst.
  assert (Hnone : forall l : list (Command * Flag),
             ~ In c (map fst l) ->
             filter (fun call => Command_eqb (fst call) c) l = []).
  { induction l as [|[k' v'] l IHl]; simpl; intros H; [reflexivity|].
    destruct (Command_eqb k' c) eqn:E.
    - apply Command_eqb_eq in E. subst. exfalso. apply H. now left.
    - apply IHl. intros H'. apply H. now right. }
  destruct Hin as [E|Hin].
  - inversion E; subst. rewrite Command_eqb_refl, Hnone; [reflexivity | exact Hk].
  - destruct (Command_eqb k c) eqn:E.
    + apply Command_eqb_eq in E. subst k. exfalso. apply Hk.
      change c with (fst (c, f)). now apply in_map.
    + now apply IH.
Qed.

(** ** Rendering *)

Lemma render_append (s : string) (output : Output) :
  render s output = (s ++ render "" output)%string.
Proof.
  unfold render. destruct (empty (get_message output)).
  - now rewrite append_nil_r.
  - reflexivity.
Qed.

Lemma fold_render_append (l : list Output) :
  forall s, fold_left render l s = (s ++ fold_left render l "")%string.
Proof.
  induction l as [|output l IH]; intros s; simpl.
  - now rewrite append_nil_r.
  - rewrite (IH (render s output)), (IH (render "" output)).
    now rewrite render_append, append_assoc.
Qed.

Lemma fold_render_app (l1 l2 : list Output) :
  fold_left render (l1 ++ l2) ""
  = (fold_left render l1 "" ++ fold_left render l2 "")%string.
Proof. now rewrite fold_left_app, fold_render_append. Qed.

Lemma report_grab_output (e : Engine) :
  report (grab_output e) = fold_left render (outputs e) "".
Proof.
  unfold report, grab_output. now destruct (negb (empty (file_out (operations e)))).
Qed.

(** C10. An output with a message is rendered on one line, labelled
    [[SUCCESS]: ] when its tag is [Ok] and [[ERROR]: ] when it is [Err] or
    [Undefined]. *)
Theorem grab_output_labels (e : Engine) (before after : list Output)
    (output : Output) :
  outputs e = before ++ output :: after ->
  get_message output <> "" ->
  report (grab_output e)
  = (fold_left render before ""
     ++ match res output with
        | Ok => "[SUCCESS]: "
        | Err | Undefined => "[ERROR]: "
        end
     ++ get_message output ++ nl
     ++ fold_left render after "")%string.
Proof.
  intros Hout Hmsg. rewrite report_grab_output, Hout, fold_render_app.
  f_equal. simpl. rewrite fold_render_append.
  apply empty_false in Hmsg.
  unfold render at 1. rewrite Hmsg. unfold is_ok.
  destruct (res output); simpl; rewrite append_assoc; reflexivity.
Qed.

Lemma grab_output_labels_witness :
  report (grab_output
            {| commands := [];
               outputs := [Output_new_ok "<-w> Words: 2";
                           {| res := Undefined; msg := "left over" |};
                           Output_new_err "<-a> This flag requires an argument!"];
               operations := Operations_new |})
  = (fold_left render [Output_new_ok "<-w> Words: 2"] ""
     ++ "[ERROR]: " ++ "left over" ++ nl
     ++ fold_left render [Output_new_err "<-a> This flag requires an argument!"] "")%string.
Proof.
  apply (grab_output_labels
           {| commands := [];
              outputs := [Output_new_ok "<-w> Words: 2";
                          {| res := Undefined; msg := "left over" |};
                          Output_new_err "<-a> This flag requires an argument!"];
              operations := Operations_new |}
           [Output_new_ok "<-w> Words: 2"]
           [Output_new_err "<-a> This flag requires an argument!"]
           {| res := Undefined; msg := "left over" |}).
  - reflexivity.
  - discriminate.
Defined.

(** ** The input-file flag *)

(** C5, as the code has it. When the instruction holds the input-file flag
    and another flag, a fresh engine returns the one line below and
    validates nothing, whatever the files are. *)
Theorem input_file_flag_must_be_alone (std : StdLib) (fs : FileSystem)
    (uninit : N) (raw_args : list string) (h : CommandsHolder) :
  flag_exists (from_vec_string uninit raw_args) "-i" "--input" = true ->
  (2 <= length (from_vec_string uninit raw_args))%nat ->
  Engine_execute std fs uninit raw_args (Engine_fresh h)
  = Some {| returned := "[ERROR]: <ENGINE> Input file flag should be the only one!" ++ nl;
            written := None;
            engine_after := Engine_fresh h |}
  /\ option_map t_validated (execute_trace std fs uninit raw_args (Engine_fresh h))
     = Some [].
Proof.
  intros Hflag Hlen.
  unfold Engine_execute, execute_trace, working_instruction. simpl caller. simpl alias.
  rewrite Hflag.
  replace (size (from_vec_string uninit raw_args) =? 1)%N with false.
  - split; reflexivity.
  - symmetry. apply N.eqb_neq. unfold size. lia.
Qed.

Lemma input_file_flag_must_be_alone_witness :
  Engine_execute reference_std empty_fs 0 ["-i"; "cmds.txt"; "-w"] (Engine_fresh (commands create_engine))
  = Some {| returned := "[ERROR]: <ENGINE> Input file flag should be the only one!" ++ nl;
            written := None;
            engine_after := Engine_fresh (commands create_engine) |}
  /\ option_map t_validated
       (execute_trace reference_std empty_fs 0 ["-i"; "cmds.txt"; "-w"]
          (Engine_fresh (commands create_engine)))
     = Some [].
Proof.
  apply input_file_flag_must_be_alone.
  - reflexivity.
  - vm_compute. lia.
Defined.

(** C5, as the claim has it: the line returned is not the one of the
    claim; it names the engine. *)
Lemma input_file_line_names_the_engine :
  option_map report
    (Engine_execute reference_std empty_fs 0 ["-i"; "cmds.txt"; "-w"] create_engine)
  <> Some ("[ERROR]: Input file flag should be the only one!" ++ nl)%string.
Proof. vm_compute. discriminate. Qed.

(** ** The validation pass, turn by turn *)

Lemma validation_loop_split (std : StdLib) (fs : FileSystem) (h : CommandsHolder) :
  forall a b i st,
    is_panicked (v_operations st) = false ->
    is_panicked (v_operations (validation_loop std fs h a i st)) = false ->
    validation_loop std fs h (a + b) i st
    = validation_loop std fs h b (i + a) (validation_loop std fs h a i st).
Proof.
  induction a as [|a IH]; intros b i st Hst Hloop.
  - simpl. now rewrite Nat.add_0_r.
  - simpl in *. unfold get_flags in *.
    destruct (nth_error (v_inst st) i) as [flag|] eqn:Hnth.
    + destruct (resolve std h (name flag)) as [command|].
      * destruct (validate fs command flag (v_inst st) (v_operations st))
          as [[output inst] ops] eqn:Hval.
        destruct (is_err output).
        -- simpl in Hloop. discriminate.
        -- rewrite IH.
           ++ f_equal. lia.
           ++ simpl. apply validate_keeps in Hval. destruct Hval as [Hp _]. congruence.
           ++ exact Hloop.
      * simpl in Hloop. discriminate.
    + destruct b as [|b]; simpl; [reflexivity|]. unfold get_flags.
      replace (nth_error (v_inst st) (i + S a)) with (@None Flag); [reflexivity|].
      symmetry. apply nth_error_None. apply nth_error_None in Hnth. lia.
Qed.

Lemma validation_loop_names (std : StdLib) (fs : FileSystem) (h : CommandsHolder) :
  forall n i st,
    map name (v_inst (validation_loop std fs h n i st)) = map name (v_inst st).
Proof.
  intros n i st.
  apply (validation_loop_preserves
           (fun st' => map name (v_inst st') = map name (v_inst st)) std fs h).
  - intros st' j flag command output inst ops H _ _ Hval _. simpl.
    apply validate_keeps in Hval. destruct Hval as [_ Hn]. congruence.
  - intros st' j flag command output inst ops H _ _ Hval _. simpl.
    apply validate_keeps in Hval. destruct Hval as [_ Hn]. congruence.
  - intros st' j flag H _ _. exact H.
  - reflexivity.
Qed.

Lemma validation_loop_quiet (std : StdLib) (fs : FileSystem) (h : CommandsHolder) :
  forall n i st,
    is_panicked (v_operations (validation_loop std fs h n i st)) = false ->
    v_outputs (validation_loop std fs h n i st) = v_outputs st.
Proof.
  intros n i st.
  apply (validation_loop_preserves
           (fun st' => is_panicked (v_operations st') = false ->
                       v_outputs st' = v_outputs st) std fs h).
  - intros st' j flag command output inst ops H _ _ Hval _. simpl. intros Hp.
    apply H. apply validate_keeps in Hval. destruct Hval as [Hk _]. congruence.
  - intros st' j flag command output inst ops H _ _ _ _. simpl. discriminate.
  - intros st' j flag H _ _. simpl. discriminate.
  - reflexivity.
Qed.

Lemma validation_loop_stops_on_invalid_flag (std : StdLib) (fs : FileSystem)
    (e : Engine) (inst : Instruction) (k : nat) (flag : Flag) :
  is_panicked (operations e) = false ->
  nth_error inst k = Some flag ->
  resolve std (commands e) (name flag) = None ->
  is_panicked (v_operations (validation_prefix std fs e inst k)) = false ->
  exists flag',
    name flag' = name flag
    /\ validation_pass std fs e inst
       = stop_on_invalid_flag (validation_prefix std fs e inst k) flag'
    /\ v_outputs (validation_prefix std fs e inst k) = outputs e.
Proof.
  intros He Hnth Hres Hpre.
  assert (Hlen : (k < length inst)%nat) by (apply nth_error_Some; congruence).
  assert (Hnames : map name (v_inst (validation_prefix std fs e inst k)) = map name inst).
  { unfold validation_prefix. now rewrite validation_loop_names. }
  assert (Hflag' : exists flag',
             nth_error (v_inst (validation_prefix std fs e inst k)) k = Some flag'
             /\ name flag' = name flag).
  { apply (f_equal (fun l => nth_error l k)) in Hnames.
    rewrite !nth_error_map, Hnth in Hnames.
    destruct (nth_error (v_inst _) k) as [flag'|]; [|discriminate].
    exists flag'. split; [reflexivity|]. simpl in Hnames. congruence. }
  destruct Hflag' as [flag' [Hnth' Hname]].
  exists flag'. split; [exact Hname|]. split.
  - unfold validation_pass, get_flags.
    replace (length inst) with (k + S (length inst - S k))%nat by lia.
    rewrite validation_loop_split; [|exact He|exact Hpre].
    fold (validation_prefix std fs e inst k).
    simpl. unfold get_flags. rewrite Hnth', Hname, Hres. reflexivity.
  - unfold validation_prefix in *. now rewrite validation_loop_quiet.
Qed.

(** C3, as the code has it. When the flags before an unrecognized flag all
    validate and bind a source, the report of a fresh engine is the one
    line below and nothing else; it goes to the output file when the flags
    before bound one. *)
Theorem invalid_flag_report (std : StdLib) (fs : FileSystem) (uninit : N)
    (raw_args : list string) (h : CommandsHolder) (inst : Instruction)
    (k : nat) (flag : Flag) :
  working_instruction fs uninit raw_args (Engine_fresh h) = Some (inl inst) ->
  nth_error inst k = Some flag ->
  resolve std h (name flag) = None ->
  is_panicked (v_operations (validation_prefix std fs (Engine_fresh h) inst k)) = false ->
  empty (file_in (v_operations (validation_prefix std fs (Engine_fresh h) inst k)))
  && empty (source (v_operations (validation_prefix std fs (Engine_fresh h) inst k)))
  = false ->
  option_map report (Engine_execute std fs uninit raw_args (Engine_fresh h))
  = Some ("[ERROR]: <ENGINE> Invalid flag: [" ++ name flag ++ "]" ++ nl)%string.
Proof.
  intros Hw Hnth Hres Hpre Hsrc.
  destruct (validation_loop_stops_on_invalid_flag std fs (Engine_fresh h) inst k flag
              eq_refl Hnth Hres Hpre) as [flag' [Hname [Hpass Hout]]].
  unfold Engine_execute, execute_trace. rewrite Hw. simpl option_map.
  rewrite report_grab_output. unfold dispatch. rewrite Hpass.
  unfold source_check. simpl v_operations. simpl file_in. simpl source.
  rewrite Hsrc. simpl. rewrite Hout, Hname.
  unfold render. simpl. now rewrite !append_assoc.
Qed.

Lemma invalid_flag_report_witness :
  option_map report
    (Engine_execute reference_std (constant_fs "b a") 0 ["-f"; "words.txt"; "-z"; "-w"]
       (Engine_fresh (commands create_engine)))
  = Some ("[ERROR]: <ENGINE> Invalid flag: ["
          ++ name {| name := "-z"; arg := ""; pos := 1; mod_ := 0 |} ++ "]" ++ nl)%string.
Proof.
  apply (invalid_flag_report reference_std (constant_fs "b a") 0
           ["-f"; "words.txt"; "-z"; "-w"] (commands create_engine)
           [{| name := "-f"; arg := "words.txt"; pos := 0; mod_ := 0 |};
            {| name := "-z"; arg := ""; pos := 1; mod_ := 0 |};
            {| name := "-w"; arg := ""; pos := 2; mod_ := 0 |}]
           1 {| name := "-z"; arg := ""; pos := 1; mod_ := 0 |}).
  - reflexivity.
  - reflexivity.
  - reflexivity.
  - reflexivity.
  - reflexivity.
Defined.

(** C3, as the claim has it: with a source bound, the one line of the
    report is not the line of the claim; it names the engine. *)
Lemma invalid_flag_line_names_the_engine :
  option_map report
    (Engine_execute reference_std (constant_fs "b a") 0 ["-f"; "words.txt"; "-z"]
       create_engine)
  <> Some ("[ERROR]: Invalid flag: [-z]" ++ nl)%string.
Proof. vm_compute. discriminate. Qed.

(** ** The source check *)

Lemma resolve_some_name (std : StdLib) (h : CommandsHolder) (n : string)
    (c : Command) :
  resolve std h n = Some c -> n = caller c \/ n = alias c.
Proof.
  unfold resolve. rewrite get_by_caller_find, get_by_alias_find.
  destruct (find (fun c' => String.eqb (caller c') n) h) as [c'|] eqn:E.
  - intros H. inversion H; subst. apply find_some in E.
    left. symmetry. now apply String.eqb_eq.
  - intros H. apply find_some in H. right. symmetry. now apply String.eqb_eq.
Qed.

Lemma names_start_with_dash (c : Command) :
  prefix "-" (caller c) = true /\ prefix "-" (alias c) = true.
Proof. destruct c; split; reflexivity. Qed.

Lemma dash_message_not_source_error (flag : Flag) (text : string) :
  prefix "-" (name flag) = true ->
  Output_new_err (flag_string_stream flag ++ text) <> source_error.
Proof.
  unfold flag_string_stream. destruct (name flag) as [|a s]; [discriminate|].
  change (prefix "-" (String a s))
    with (if ascii_dec "-" a then prefix "" s else false).
  destruct (ascii_dec "-" a) as [<-|]; [|discriminate].
  intros _ H. discriminate H.
Qed.

Lemma validate_not_source_error (fs : FileSystem) (c : Command) (flag : Flag)
    (inst : Instruction) (ops : Operations) :
  prefix "-" (name flag) = true ->
  fst (fst (validate fs c flag inst ops)) <> source_error.
Proof.
  intros Hdash.
  pose proof (dash_message_not_source_error flag) as Hmsg.
  destruct c; simpl; unfold validate_last_with_argument; break_match;
    simpl; try (apply Hmsg; exact Hdash); discriminate.
Qed.

Lemma validation_pass_no_source_error (std : StdLib) (fs : FileSystem)
    (h : CommandsHolder) (inst : Instruction) :
  ~ In source_error (v_outputs (validation_pass std fs (Engine_fresh h) inst)).
Proof.
  unfold validation_pass.
  apply (validation_loop_preserves
           (fun st => ~ In source_error (v_outputs st)) std fs (commands (Engine_fresh h))).
  - intros st i flag command output inst' ops H _ _ _ _. exact H.
  - intros st i flag command output inst' ops H _ Hres Hval _. simpl.
    intros Hin. apply in_app_or in Hin. destruct Hin as [Hin|[Hin|[]]]; [now apply H|].
    apply (validate_not_source_error fs command flag (v_inst st) (v_operations st)).
    + apply resolve_some_name in Hres.
      destruct (names_start_with_dash command) as [H1 H2].
      destruct Hres as [->| ->]; assumption.
    + rewrite Hval. simpl. now symmetry.
  - intros st i flag H _ _. simpl.
    intros Hin. apply in_app_or in Hin. destruct Hin as [Hin|[Hin|[]]]; [now apply H|].
    discriminate Hin.
  - simpl. tauto.
Qed.

Lemma execute_ok (std : StdLib) (fs : FileSystem) (c : Command) (flag : Flag)
    (ops : Operations) :
  res (execute std fs c flag ops) = Ok.
Proof. destruct c; reflexivity. Qed.

Lemma execution_loop_outputs (std : StdLib) (fs : FileSystem) (ops : Operations)
    (calls : list (Command * Flag)) :
  forall outs o,
    In o (fst (execution_loop std fs ops calls outs)) -> In o outs \/ res o = Ok.
Proof.
  intros outs o. rewrite execution_loop_pushed, in_app_iff, in_flat_map.
  intros [H | [call [_ H]]]; [now left | right].
  unfold pushed in H. destruct (negb _); [|contradiction].
  destruct H as [<- | []]. apply execute_ok.
Qed.

Lemma both_empty_iff (ops : Operations) :
  empty (file_in ops) && empty (source ops) = true
  <-> file_in ops = "" /\ source ops = "".
Proof. now rewrite andb_true_iff, !empty_true. Qed.

(** C4, as the code has it. The source check follows the validation loop
    however the loop was left. On a fresh engine the report holds the
    source error exactly when neither the input-file path nor the source
    text is set once the loop is over, whether the loop went through all
    flags or stopped at one that failed; the error then comes last, after
    what validation reported. *)
Theorem source_check_follows_the_loop (std : StdLib) (fs : FileSystem)
    (h : CommandsHolder) (inst : Instruction) :
  (In source_error (outputs (t_engine (dispatch std fs (Engine_fresh h) inst)))
   <-> file_in (v_operations (validation_pass std fs (Engine_fresh h) inst)) = ""
       /\ source (v_operations (validation_pass std fs (Engine_fresh h) inst)) = "")
  /\ (file_in (v_operations (validation_pass std fs (Engine_fresh h) inst)) = ""
      /\ source (v_operations (validation_pass std fs (Engine_fresh h) inst)) = ""
      -> outputs (t_engine (dispatch std fs (Engine_fresh h) inst))
         = v_outputs (validation_pass std fs (Engine_fresh h) inst) ++ [source_error]).
Proof.
  pose proof (validation_pass_no_source_error std fs h inst) as Hno.
  unfold dispatch, source_check.
  set (v := validation_pass std fs (Engine_fresh h) inst) in *.
  pose proof (both_empty_iff (v_operations v)) as Hboth.
  destruct (empty (file_in (v_operations v)) && empty (source (v_operations v))).
  - simpl. split; [|intros _; reflexivity].
    split; [intros _; now apply Hboth|]. intros _. apply in_or_app. right. now left.
  - assert (Hne : ~ (file_in (v_operations v) = "" /\ source (v_operations v) = "")).
    { intros H. apply Hboth in H. discriminate. }
    split; [|intros H; contradiction].
    split; [|intros H; contradiction].
    destruct (is_panicked (v_operations v)); simpl; intros H.
    + contradiction.
    + apply execution_loop_outputs in H. destruct H as [H|H]; [contradiction | discriminate].
Qed.

(** C4, as the claim has it: a run that panicked on an unrecognized flag
    gets the source error as well. *)
Lemma panicked_run_also_gets_source_error :
  is_panicked
    (v_operations (validation_pass reference_std empty_fs create_engine
                     (from_vec_string 0 ["-z"]))) = true
  /\ option_map (fun t => outputs (t_engine t))
       (execute_trace reference_std empty_fs 0 ["-z"] create_engine)
     = Some [Output_new_err "<ENGINE> Invalid flag: [-z]"; source_error].
Proof. split; vm_compute; reflexivity. Qed.

(** ** The input-file branch and the indeterminate position *)





(** A run that returns its report leaves the engine with fresh run state:
    the next run on the same engine starts as the first one did. *)
Lemma execute_leaves_engine_fresh (std : StdLib) (fs : FileSystem) (uninit : N)
    (raw_args : list string) (e : Engine) (r : Returned) :
  Engine_execute std fs uninit raw_args e = Some r ->
  written r = None ->
  engine_after r = Engine_fresh (commands e).
Proof.
  unfold Engine_execute. destruct (execute_trace std fs uninit raw_args e) as [t|] eqn:Ht;
    [|discriminate].
  intros H Hw. inversion H; subst r. clear H.
  unfold grab_output in *. destruct (negb _); [discriminate|]. simpl.
  unfold clear, Engine_fresh. f_equal.
  unfold execute_trace in Ht.
  destruct (working_instruction fs uninit raw_args e) as [[inst|early]|] eqn:Hwi;
    inversion Ht; subst t.
  - unfold dispatch. now destruct (is_panicked _).
  - unfold working_instruction in Hwi.
    destruct (flag_exists _ _ _); [|discriminate].
    destruct (negb _); [inversion Hwi; reflexivity|].
    destruct (get_flag_ptr _ _); [|discriminate].
    destruct (Flag_is_empty _); [inversion Hwi; reflexivity|].
    destruct (negb _); inversion Hwi; reflexivity.
Qed.

Lemma execute_leaves_engine_fresh_witness :
  engine_after
    {| returned := "[SUCCESS]: <-w> Words: 2" ++ nl; written := None;
       engine_after := create_engine |}
  = Engine_fresh (commands create_engine).
Proof.
  apply (execute_leaves_engine_fresh reference_std (constant_fs "b a") 0
           ["-f"; "words.txt"; "-w"] create_engine).
  - vm_compute. reflexivity.
  - reflexivity.
Defined.

(** ** Sorting by length *)

Lemma empty_append_space (s : string) : empty (s ++ " ") = false.
Proof. destruct s; reflexivity. Qed.

Lemma pop_back_append_space (s : string) : pop_back (s ++ " ") = s.
Proof.
  induction s as [|c s IH]; [reflexivity|].
  simpl. rewrite IH. destruct (s ++ " ")%string eqn:E; [|reflexivity].
  destruct s; discriminate.
Qed.

Lemma from_vec_string_f_l_s (uninit : N) (path : string) :
  empty path = false ->
  is_flag_token path = false ->
  from_vec_string uninit ["-f"; path; "-l"; "-s"]
  = [{| name := "-f"; arg := path; pos := 0; mod_ := 0 |};
     {| name := "-l"; arg := ""; pos := 1; mod_ := 0 |};
     {| name := "-s"; arg := ""; pos := 2; mod_ := 0 |}].
Proof.
  intros Hne Hnf. unfold from_vec_string. simpl. rewrite Hne, Hnf. simpl.
  unfold Flag_parse. simpl. rewrite empty_append_space. simpl.
  now rewrite pop_back_append_space.
Qed.

Lemma from_vec_string_f_l (uninit : N) (path : string) :
  empty path = false ->
  is_flag_token path = false ->
  from_vec_string uninit ["-f"; path; "-l"]
  = [{| name := "-f"; arg := path; pos := 0; mod_ := 0 |};
     {| name := "-l"; arg := ""; pos := 1; mod_ := 0 |}].
Proof.
  intros Hne Hnf. unfold from_vec_string. simpl. rewrite Hne, Hnf. simpl.
  unfold Flag_parse. simpl. rewrite empty_append_space. simpl.
  now rewrite pop_back_append_space.
Qed.

Lemma resolve_create_engine_caller (std : StdLib) (c : Command) :
  resolve std (commands create_engine) (caller c) = Some c.
Proof. apply resolve_caller, in_create_engine. Qed.

Lemma validation_loop_turn_ok (std : StdLib) (fs : FileSystem) (h : CommandsHolder)
    (n i : nat) (st : Validation) (flag : Flag) (command : Command)
    (output : Output) (inst : Instruction) (ops : Operations) :
  nth_error (v_inst st) i = Some flag ->
  resolve std h (name flag) = Some command ->
  validate fs command flag (v_inst st) (v_operations st) = (output, inst, ops) ->
  is_err output = false ->
  validation_loop std fs h (S n) i st
  = validation_loop std fs h n (S i) (record_validated st command flag inst ops).
Proof.
  intros Hnth Hres Hval Herr. simpl. unfold get_flags.
  now rewrite Hnth, Hres, Hval, Herr.
Qed.

Lemma validation_loop_turn_err (std : StdLib) (fs : FileSystem) (h : CommandsHolder)
    (n i : nat) (st : Validation) (flag : Flag) (command : Command)
    (output : Output) (inst : Instruction) (ops : Operations) :
  nth_error (v_inst st) i = Some flag ->
  resolve std h (name flag) = Some command ->
  validate fs command flag (v_inst st) (v_operations st) = (output, inst, ops) ->
  is_err output = true ->
  validation_loop std fs h (S n) i st = stop_on_error st output inst ops.
Proof.
  intros Hnth Hres Hval Herr. simpl. unfold get_flags.
  now rewrite Hnth, Hres, Hval, Herr.
Qed.

Lemma validate_source_file (fs : FileSystem) (flag : Flag) (inst : Instruction)
    (ops : Operations) :
  empty (arg flag) = false ->
  File_exists fs (arg flag) = true ->
  validate fs SourceFile flag inst ops
  = (Output_new_ok "", inst,
     set_source (File_read_unchecked fs (arg flag)) (set_file_in (arg flag) ops)).
Proof. intros Hne Hex. unfold validate. now rewrite Hne, Hex. Qed.

(** One turn of the loop on a flag that names the command [c] by its caller
    and whose validation succeeds ([turn_ok]) or fails ([turn_err]); [tac]
    computes the result of [validate]. *)
Ltac turn_ok std c tac :=
  erewrite validation_loop_turn_ok;
  [ | reflexivity | exact (resolve_create_engine_caller std c) | tac | reflexivity ].

Ltac turn_err std c tac :=
  erewrite validation_loop_turn_err;
  [ | reflexivity | exact (resolve_create_engine_caller std c) | tac | reflexivity ].

Lemma validation_f_l_s (std : StdLib) (fs : FileSystem) (path : string) :
  empty path = false ->
  File_exists fs path = true ->
  validation_pass std fs create_engine
    [{| name := "-f"; arg := path; pos := 0; mod_ := 0 |};
     {| name := "-l"; arg := ""; pos := 1; mod_ := 0 |};
     {| name := "-s"; arg := ""; pos := 2; mod_ := 0 |}]
  = {| v_inst :=
         [{| name := "-f"; arg := path; pos := 0; mod_ := 0 |};
          {| name := "-l"; arg := ""; pos := 1; mod_ := 0 |};
          {| name := "-s"; arg := ""; pos := 2; mod_ := 1 |}];
       v_operations :=
         {| file_in := path; file_out := "";
            source := File_read_unchecked fs path; is_panicked := false |};
       v_outputs := [];
       validated_commands :=
         [(SourceFile, {| name := "-f"; arg := path; pos := 0; mod_ := 0 |});
          (WordsConsiderLength, {| name := "-l"; arg := ""; pos := 1; mod_ := 0 |});
          (ShowWords, {| name := "-s"; arg := ""; pos := 2; mod_ := 1 |})];
       validate_calls :=
         [(SourceFile, {| name := "-f"; arg := path; pos := 0; mod_ := 0 |});
          (WordsConsiderLength, {| name := "-l"; arg := ""; pos := 1; mod_ := 0 |});
          (ShowWords, {| name := "-s"; arg := ""; pos := 2; mod_ := 1 |})] |}.
Proof.
  intros Hne Hex. unfold validation_pass, validation_start. simpl length.
  turn_ok std SourceFile ltac:(apply validate_source_file; assumption).
  turn_ok std WordsConsiderLength ltac:(reflexivity).
  turn_ok std ShowWords ltac:(reflexivity).
  reflexivity.
Qed.

Lemma validation_f_l (std : StdLib) (fs : FileSystem) (path : string) :
  empty path = false ->
  File_exists fs path = true ->
  validation_pass std fs create_engine
    [{| name := "-f"; arg := path; pos := 0; mod_ := 0 |};
     {| name := "-l"; arg := ""; pos := 1; mod_ := 0 |}]
  = {| v_inst :=
         [{| name := "-f"; arg := path; pos := 0; mod_ := 0 |};
          {| name := "-l"; arg := ""; pos := 1; mod_ := 0 |}];
       v_operations :=
         {| file_in := path; file_out := "";
            source := File_read_unchecked fs path; is_panicked := true |};
       v_outputs := [Output_new_err "<-l> This flag can't be the last one!"];
       validated_commands :=
         [(SourceFile, {| name := "-f"; arg := path; pos := 0; mod_ := 0 |})];
       validate_calls :=
         [(SourceFile, {| name := "-f"; arg := path; pos := 0; mod_ := 0 |})] |}.
Proof.
  intros Hne Hex. unfold validation_pass, validation_start. simpl length.
  turn_ok std SourceFile ltac:(apply validate_source_file; assumption).
  turn_err std WordsConsiderLength ltac:(reflexivity).
  reflexivity.
Qed.

Lemma execution_loop_single (std : StdLib) (fs : FileSystem) (ops : Operations)
    (m : list (Command * Flag)) (output : Output) :
  flat_map (pushed std fs ops) m = [output] ->
  fst (execution_loop std fs ops (iter_validated std m) []) = [output].
Proof.
  intros H. rewrite execution_loop_pushed. simpl.
  apply Permutation_length_1_inv. rewrite <- H.
  apply Permutation_flat_map, Permutation_sym, iter_validated_perm.
Qed.

Lemma by_length_strict_weak_order : strict_weak_order (get_default true).
Proof.
  simpl. constructor.
  - intros x. apply Nat.ltb_irrefl.
  - intros x y z H1 H2. apply Nat.ltb_lt in H1, H2. apply Nat.ltb_lt. lia.
  - intros x y z H1 H2 H3 H4. apply Nat.ltb_ge in H1, H2, H3, H4.
    split; apply Nat.ltb_ge; lia.
Qed.

Lemma StronglySorted_impl {A : Type} (R R' : A -> A -> Prop) (l : list A) :
  (forall a b, R a b -> R' a b) ->
  StronglySorted R l -> StronglySorted R' l.
Proof.
  intros H. induction 1 as [|x l Hl IH Hx]; constructor.
  - exact IH.
  - eapply Forall_impl; [|exact Hx]. intros b. apply H.
Qed.

(** C2, as the code has it. With a source bound by [-f], the modifier
    [-l] placed before [-s] makes the run report the words of the source in
    ascending order of length; and [-l] as the last flag makes the run
    report the one error line below. *)
Theorem by_length_modifier_comes_first (std : StdLib) (fs : FileSystem)
    (uninit : N) (path : string) :
  empty path = false ->
  is_flag_token path = false ->
  File_exists fs path = true ->
  (exists words,
      Permutation words (get_words (File_read_unchecked fs path))
      /\ StronglySorted (fun a b => (String.length a <= String.length b)%nat) words
      /\ Engine_execute std fs uninit ["-f"; path; "-l"; "-s"] create_engine
         = Some {| returned :=
                     "[SUCCESS]: "
                     ++ flag_string_stream_structure
                          {| name := "-s"; arg := ""; pos := 2; mod_ := 1 |} words
                     ++ nl;
                   written := None;
                   engine_after := create_engine |})
  /\ Engine_execute std fs uninit ["-f"; path; "-l"] create_engine
     = Some {| returned := "[ERROR]: <-l> This flag can't be the last one!" ++ nl;
               written := None;
               engine_after := create_engine |}.
Proof.
  intros Hne Hnf Hex. split.
  - exists (std_sort std (get_default true) (get_words (File_read_unchecked fs path))).
    split; [apply std_sort_perm, by_length_strict_weak_order|]. split.
    + eapply StronglySorted_impl;
        [|apply std_sort_sorted, by_length_strict_weak_order].
      simpl. intros a b H. apply Nat.ltb_ge in H. exact H.
    + unfold Engine_execute, execute_trace, working_instruction.
      rewrite from_vec_string_f_l_s by assumption.
      change (flag_exists _ (caller InputFile) (alias InputFile)) with false.
      cbv iota. unfold dispatch. rewrite validation_f_l_s by assumption.
      unfold source_check. cbn [v_operations file_in source]. rewrite Hne.
      cbn [andb is_panicked v_operations validated_commands v_outputs].
      rewrite (execution_loop_single std fs _ _
                 (Output_new_ok
                    (flag_string_stream_structure
                       {| name := "-s"; arg := ""; pos := 2; mod_ := 1 |}
                       (std_sort std (get_default true)
                          (get_words (File_read_unchecked fs path)))))).
      * reflexivity.
      * reflexivity.
  - unfold Engine_execute, execute_trace, working_instruction.
    rewrite from_vec_string_f_l by assumption.
    change (flag_exists _ (caller InputFile) (alias InputFile)) with false.
    cbv iota. unfold dispatch. rewrite validation_f_l by assumption.
    unfold source_check. cbn [v_operations file_in source]. rewrite Hne.
    reflexivity.
Qed.

Lemma by_length_modifier_comes_first_witness :
  (exists words,
      Permutation words (get_words (File_read_unchecked (constant_fs "ccc a bb") "words.txt"))
      /\ StronglySorted (fun a b => (String.length a <= String.length b)%nat) words
      /\ Engine_execute reference_std (constant_fs "ccc a bb") 0
           ["-f"; "words.txt"; "-l"; "-s"] create_engine
         = Some {| returned :=
                     "[SUCCESS]: "
                     ++ flag_string_stream_structure
                          {| name := "-s"; arg := ""; pos := 2; mod_ := 1 |} words
                     ++ nl;
                   written := None;
                   engine_after := create_engine |})
  /\ Engine_execute reference_std (constant_fs "ccc a bb") 0
       ["-f"; "words.txt"; "-l"] create_engine
     = Some {| returned := "[ERROR]: <-l> This flag can't be the last one!" ++ nl;
               written := None;
               engine_after := create_engine |}.
Proof.
  apply (by_length_modifier_comes_first reference_std (constant_fs "ccc a bb") 0
           "words.txt"); reflexivity.
Defined.

(** The words of the witness, as the reference platform sorts them. *)
Example by_length_words :
  option_map report
    (Engine_execute reference_std (constant_fs "ccc a bb") 0
       ["-f"; "words.txt"; "-l"; "-s"] create_engine)
  = Some ("[SUCCESS]: <-s> {" ++ nl
          ++ "    " ++ dquote ++ "a" ++ dquote ++ "," ++ nl
          ++ "    " ++ dquote ++ "bb" ++ dquote ++ "," ++ nl
          ++ "    " ++ dquote ++ "ccc" ++ dquote ++ "," ++ nl
          ++ "}" ++ nl)%string.
Proof. vm_compute. reflexivity. Qed.

(** C2, as the claim has it: the sequence [-s -l] does not sort by length.
    The modifier comes last, its validation fails, and the report is the
    error line of [-l], which carries the name of the flag. *)
Lemma sorted_then_by_length_is_an_error :
  option_map report
    (Engine_execute reference_std (constant_fs "ccc a bb") 0
       ["-f"; "words.txt"; "-s"; "-l"] create_engine)
  = Some ("[ERROR]: <-l> This flag can't be the last one!" ++ nl)%string.
Proof. vm_compute. reflexivity. Qed.


(* ------------------------------------------------------------------ *)
(** * Further properties of the code *)

(** ** [Regex::get_words] *)

(** A string without a white-space character. *)
Fixpoint space_free (s : string) : bool :=
  match s with
  | EmptyString => true
  | String c s' => negb (is_space c) && space_free s'
  end.

(** What [get_words] calls a word. *)
Definition is_word (w : string) : Prop :=
  empty w = false /\ space_free w = true.

Lemma space_free_snoc (s : string) (c : ascii) :
  space_free (s ++ String c "") = space_free s && negb (is_space c).
Proof.
  induction s as [|a s IH]; simpl.
  - now rewrite andb_true_r.
  - now rewrite IH, andb_assoc.
Qed.

Lemma empty_snoc (s : string) (c : ascii) : empty (s ++ String c "") = false.
Proof. now destruct s. Qed.

Lemma words_from_are_words (target : string) :
  forall word,
    space_free word = true ->
    Forall is_word (words_from target word).
Proof.
  induction target as [|c target IH]; intros word Hword; simpl.
  - destruct (empty word) eqn:E; constructor; [now split | constructor].
  - destruct (is_space c) eqn:Hc.
    + destruct (empty word) eqn:E.
      * now apply IH.
      * constructor; [now split | now apply IH].
    + apply IH. now rewrite space_free_snoc, Hword, Hc.
Qed.

Lemma words_from_split (s1 s2 : string) (c : ascii) :
  is_space c = true ->
  forall word,
    words_from (s1 ++ String c s2) word = words_from s1 word ++ words_from s2 "".
Proof.
  intros Hc. induction s1 as [|a s1 IH]; intros word; simpl.
  - rewrite Hc. now destruct (empty word).
  - destruct (is_space a).
    + destruct (empty word); [apply IH | now rewrite IH].
    + apply IH.
Qed.

Lemma words_from_word (w rest : string) :
  space_free w = true ->
  forall word, words_from (w ++ rest) word = words_from rest (word ++ w).
Proof.
  induction w as [|a w IH]; intros Hw word; simpl.
  - now rewrite append_nil_r.
  - simpl in Hw. apply andb_prop in Hw. destruct Hw as [Ha Hw].
    apply negb_true_iff in Ha. rewrite Ha, (IH Hw).
    now rewrite append_assoc.
Qed.

Lemma get_words_word (w : string) : is_word w -> get_words w = [w].
Proof.
  intros [Hne Hsf]. unfold get_words.
  rewrite <- (append_nil_r w) at 1. rewrite (words_from_word w "" Hsf).
  simpl. now rewrite Hne.
Qed.

(** X3. Every word [get_words] returns is non-empty and holds no
    white-space character. *)
Theorem get_words_are_words (target : string) :
  Forall is_word (get_words target).
Proof. unfold get_words. now apply words_from_are_words. Qed.

(** X4. [get_words] splits at a white-space character: the words of a text
    are the words before that character followed by the words after it. *)
Theorem get_words_split (s1 s2 : string) (c : ascii) :
  is_space c = true ->
  get_words (s1 ++ String c s2) = get_words s1 ++ get_words s2.
Proof. intros Hc. unfold get_words. now apply words_from_split. Qed.

Lemma get_words_split_witness :
  get_words ("tac dog" ++ String (ascii_of_nat 10) "cat")
  = get_words "tac dog" ++ get_words "cat".
Proof. apply get_words_split. reflexivity. Defined.

(** X5. Words joined by single spaces are read back as they were. *)
Theorem get_words_concat (ws : list string) :
  Forall is_word ws -> get_words (String.concat " " ws) = ws.
Proof.
  induction 1 as [|w ws Hw Hws IH]; [reflexivity|].
  destruct ws as [|w' ws].
  - simpl. now apply get_words_word.
  - change (String.concat " " (w :: w' :: ws))
      with (w ++ String " "%char (String.concat " " (w' :: ws)))%string.
    unfold get_words in *. rewrite words_from_split by reflexivity.
    rewrite IH. fold (get_words w). now rewrite get_words_word.
Qed.

Lemma get_words_concat_witness :
  get_words (String.concat " " ["cat"; "act"; "x-1"]) = ["cat"; "act"; "x-1"].
Proof.
  apply get_words_concat.
  repeat constructor.
Defined.

(** ** More on the instruction builder *)

(** The argument under construction after the tokens [words]: each followed
    by one space. *)
Fixpoint spaced (words : list string) : string :=
  match words with
  | [] => ""
  | w :: rest => w ++ " " ++ spaced rest
  end.

(** A token that is neither empty nor a flag token. *)
Definition is_argument_token (token : string) : Prop :=
  empty token = false /\ is_flag_token token = false.

Lemma pop_back_append (s1 s2 : string) :
  empty s2 = false -> pop_back (s1 ++ s2) = (s1 ++ pop_back s2)%string.
Proof.
  intros H. induction s1 as [|c s1 IH]; [reflexivity|].
  simpl. rewrite IH. destruct (s1 ++ s2)%string eqn:E; [|reflexivity].
  destruct s1, s2; discriminate.
Qed.

Lemma empty_spaced_cons (w : string) (words : list string) :
  empty (spaced (w :: words)) = false.
Proof. simpl. now destruct w. Qed.

Lemma pop_back_spaced (words : list string) :
  pop_back (spaced words) = String.concat " " words.
Proof.
  induction words as [|w words IH]; [reflexivity|].
  destruct words as [|w' words].
  - simpl. apply pop_back_append_space.
  - change (spaced (w :: w' :: words)) with (w ++ " " ++ spaced (w' :: words))%string.
    rewrite pop_back_append by reflexivity.
    rewrite pop_back_append by apply empty_spaced_cons.
    now rewrite IH.
Qed.

Lemma from_vec_string_loop_arguments (uninit : N) (words : list string) :
  forall position flags flag,
    words <> [] ->
    Forall is_argument_token words ->
    Flag_exists flag = true ->
    from_vec_string_loop uninit words position flags flag
    = flags ++ [Flag_parse (set_arg (arg flag ++ spaced words) flag)].
Proof.
  induction words as [|w words IH]; intros position flags flag Hne Hall Hex;
    [congruence|].
  inversion Hall as [|? ? [Hw Hf] Hrest]; subst.
  simpl from_vec_string_loop. rewrite Hw, Hf, Hex.
  destruct words as [|w' words].
  - reflexivity.
  - rewrite IH; [|discriminate|exact Hrest|exact Hex].
    unfold Flag_parse, set_arg. cbn [arg name pos mod_].
    change (spaced (w :: w' :: words)) with (w ++ " " ++ spaced (w' :: words))%string.
    now rewrite !append_assoc.
Qed.

(** X6. A flag token followed by argument tokens is built into one flag:
    its name is the flag token and its argument the tokens joined by single
    spaces, without the separator the loop appended last. *)
Theorem from_vec_string_joins_arguments (uninit : N) (token : string)
    (words : list string) :
  is_flag_token token = true ->
  Forall is_argument_token words ->
  from_vec_string uninit (token :: words)
  = [{| name := token; arg := String.concat " " words; pos := 0; mod_ := 0 |}].
Proof.
  intros Htok Hwords. unfold from_vec_string. simpl from_vec_string_loop.
  rewrite (is_flag_token_not_empty token Htok), Htok.
  change (Flag_exists (Flag_new uninit)) with false. cbv iota.
  destruct words as [|w words]; [reflexivity|].
  rewrite from_vec_string_loop_arguments.
  - simpl app. f_equal. unfold Flag_parse, set_arg, set_pos, set_name, Flag_new.
    cbn [arg name pos mod_ append].
    change (w ++ String " " (spaced words))%string with (spaced (w :: words)).
    rewrite empty_spaced_cons. cbn [negb].
    f_equal. apply (pop_back_spaced (w :: words)).
  - discriminate.
  - exact Hwords.
  - unfold Flag_exists. simpl. now rewrite (is_flag_token_not_empty token Htok).
Qed.

Lemma from_vec_string_joins_arguments_witness :
  from_vec_string 7 ["--anagrams"; "cat"; "act"; "two words"]
  = [{| name := "--anagrams"; arg := String.concat " " ["cat"; "act"; "two words"];
        pos := 0; mod_ := 0 |}].
Proof.
  apply from_vec_string_joins_arguments.
  - reflexivity.
  - repeat constructor.
Defined.

Lemma spec_build_loop_names (tokens : list string) :
  forall counter current,
    map name (spec_build_loop tokens counter current)
    = map name (spec_finalize current) ++ filter is_flag_token tokens.
Proof.
  induction tokens as [|token rest IH]; intros counter current; simpl.
  - now rewrite app_nil_r.
  - destruct (empty token) eqn:Htok.
    + apply empty_true in Htok. subst token. simpl. apply IH.
    + destruct (is_flag_token token).
      * rewrite map_app, IH. reflexivity.
      * destruct current as [flag|]; rewrite IH; simpl; [|reflexivity].
        now rewrite !Flag_parse_name.
Qed.

(** X7. On a token sequence that holds a flag token and ends in a
    non-empty token, the names of the flags built are the flag tokens, in
    the order of the tokens. *)
Theorem from_vec_string_names (uninit : N) (vec_s : list string) :
  (N.of_nat (length vec_s) < usize_modulus)%N ->
  last vec_s "" <> "" ->
  existsb is_flag_token vec_s = true ->
  map name (from_vec_string uninit vec_s) = filter is_flag_token vec_s.
Proof.
  intros Hlen Hlast Hflag. unfold from_vec_string.
  rewrite from_vec_string_loop_refines.
  - simpl app. now rewrite spec_build_loop_names.
  - exact Hlast.
  - lia.
  - intros _. split; reflexivity.
  - now right.
Qed.

Lemma from_vec_string_names_witness :
  map name (from_vec_string 7 ["notes"; "-f"; "a.txt"; ""; "-l"; "-s"; "x"])
  = filter is_flag_token ["notes"; "-f"; "a.txt"; ""; "-l"; "-s"; "x"].
Proof.
  apply from_vec_string_names.
  - vm_compute. reflexivity.
  - discriminate.
  - reflexivity.
Defined.

Lemma from_vec_string_loop_mod (uninit : N) (vec_s : list string) :
  forall position flags flag,
    Forall (fun f => mod_ f = 0%Z) flags ->
    mod_ flag = 0%Z ->
    Forall (fun f => mod_ f = 0%Z)
      (from_vec_string_loop uninit vec_s position flags flag).
Proof.
  induction vec_s as [|token rest IH]; intros position flags flag Hflags Hflag.
  - exact Hflags.
  - simpl. destruct (empty token); [now apply IH|].
    assert (Hpush : forall l f,
              Forall (fun f => mod_ f = 0%Z) l -> mod_ f = 0%Z ->
              Forall (fun f => mod_ f = 0%Z) (l ++ [Flag_parse f])).
    { intros l f Hl Hf. apply Forall_app. split; [exact Hl|].
      constructor; [|constructor]. unfold Flag_parse.
      now destruct (negb (empty (arg f))). }
    destruct (is_flag_token token), (Flag_exists flag);
      (destruct rest; [simpl; auto | apply IH; auto]).
Qed.

(** X8. The builder sets no modifier: every flag of a freshly built
    instruction has [mod] 0, so a modifier at execution comes from a
    validation step. *)
Theorem from_vec_string_sets_no_modifier (uninit : N) (vec_s : list string) :
  Forall (fun f => mod_ f = 0%Z) (from_vec_string uninit vec_s).
Proof.
  unfold from_vec_string. apply from_vec_string_loop_mod; [constructor | reflexivity].
Qed.

(** The positions of [flags] are 0, 1, 2, ... in order. *)
Definition positions_are_indices (flags : list Flag) : Prop :=
  map pos flags = map N.of_nat (seq 0 (length flags)).

Lemma positions_are_indices_push (flags : list Flag) (flag : Flag) :
  positions_are_indices flags ->
  pos flag = N.of_nat (length flags) ->
  positions_are_indices (flags ++ [Flag_parse flag]).
Proof.
  unfold positions_are_indices. intros Hflags Hflag.
  rewrite map_app, length_app, seq_app, map_app, Hflags. simpl.
  now rewrite Flag_parse_pos, Hflag.
Qed.

Lemma from_vec_string_loop_indices (uninit : N) (vec_s : list string) :
  forall position flags flag,
    (position + N.of_nat (length vec_s) < usize_modulus)%N ->
    positions_are_indices flags ->
    (if Flag_exists flag
     then pos flag = N.of_nat (length flags)
          /\ position = (N.of_nat (length flags) + 1)%N
     else flags = [] /\ position = 0%N) ->
    positions_are_indices (from_vec_string_loop uninit vec_s position flags flag)
    \/ (Flag_exists flag = false
        /\ from_vec_string_loop uninit vec_s position flags flag = [Flag_parse flag]).
Proof.
  induction vec_s as [|token rest IH]; intros position flags flag Hlen Hflags Hflag.
  - left. exact Hflags.
  - assert (Hwrap : usize_add position 1 = (position + 1)%N).
    { apply usize_add_1. simpl length in Hlen. lia. }
    simpl. destruct (empty token) eqn:Htok.
    { apply IH; [simpl length in Hlen; lia | exact Hflags | exact Hflag]. }
    assert (Hex : forall f, Flag_exists (set_pos position (set_name token f)) = true).
    { intros f. unfold Flag_exists. simpl. now rewrite Htok. }
    assert (Hnext : forall position' flags' flag',
              (position' <= position + 1)%N ->
              Flag_exists flag' = true ->
              positions_are_indices flags' ->
              pos flag' = N.of_nat (length flags') ->
              position' = (N.of_nat (length flags') + 1)%N ->
              positions_are_indices
                (from_vec_string_loop uninit rest position'
                   match rest with
                   | [] => flags' ++ [Flag_parse flag']
                   | _ :: _ => flags'
                   end flag')).
    { intros position' flags' flag' Hp Hex' Hfl Hpos Hposition.
      destruct rest as [|token' rest'].
      - simpl. now apply positions_are_indices_push.
      - destruct (IH position' flags' flag') as [H|[H _]].
        + simpl length in *. lia.
        + exact Hfl.
        + rewrite Hex'. now split.
        + exact H.
        + congruence. }
    destruct (is_flag_token token) eqn:Hft.
    + rewrite Hwrap. left. destruct (Flag_exists flag) eqn:Hexists.
      * destruct Hflag as [Hpos Hposition].
        apply Hnext.
        -- lia.
        -- apply Hex.
        -- now apply positions_are_indices_push.
        -- simpl. rewrite length_app. simpl. lia.
        -- rewrite length_app. simpl. lia.
      * destruct Hflag as [-> ->]. apply Hnext.
        -- lia.
        -- apply Hex.
        -- reflexivity.
        -- reflexivity.
        -- reflexivity.
    + destruct (Flag_exists flag) eqn:Hexists.
      * left. destruct Hflag as [Hpos Hposition]. apply Hnext.
        -- lia.
        -- unfold Flag_exists in *. simpl. exact Hexists.
        -- exact Hflags.
        -- exact Hpos.
        -- exact Hposition.
      * destruct rest as [|token' rest'].
        -- right. destruct Hflag as [-> _]. split; reflexivity.
        -- destruct (IH position flags flag) as [H|[_ H]].
           ++ simpl length in *. lia.
           ++ exact Hflags.
           ++ now rewrite Hexists.
           ++ now left.
           ++ right. split; [reflexivity | exact H].
Qed.

Lemma from_vec_string_loop_length (uninit : N) (vec_s : list string) :
  forall position flags flag,
    (length (from_vec_string_loop uninit vec_s position flags flag)
     <= length flags + length vec_s + (if Flag_exists flag then 1 else 0))%nat.
Proof.
  induction vec_s as [|token rest IH]; intros position flags flag.
  - simpl. lia.
  - simpl from_vec_string_loop. destruct (empty token) eqn:Htok.
    { specialize (IH position flags flag). simpl length.
      destruct (Flag_exists flag); lia. }
    assert (Hex : forall f, Flag_exists (set_pos position (set_name token f)) = true).
    { intros f. unfold Flag_exists. simpl. now rewrite Htok. }
    assert (Hnext : forall position' flags' flag',
              Flag_exists flag' = true ->
              (length
                 (from_vec_string_loop uninit rest position'
                    match rest with
                    | [] => flags' ++ [Flag_parse flag']
                    | _ :: _ => flags'
                    end flag')
               <= length flags' + S (length rest))%nat).
    { intros position' flags' flag' Hex'. destruct rest as [|token' rest'].
      - simpl. rewrite length_app. simpl. lia.
      - specialize (IH position' flags' flag'). rewrite Hex' in IH.
        simpl length in *. lia. }
    simpl length.
    destruct (is_flag_token token), (Flag_exists flag) eqn:Hexists.
    + specialize (Hnext (usize_add position 1) (flags ++ [Flag_parse flag])
                    (set_pos position (set_name token (Flag_new uninit))) (Hex _)).
      rewrite length_app in Hnext. simpl length in Hnext. lia.
    + specialize (Hnext (usize_add position 1) flags
                    (set_pos position (set_name token flag)) (Hex _)). lia.
    + assert (Hex' : Flag_exists (set_arg (arg flag ++ token ++ " ") flag) = true)
        by (unfold Flag_exists in *; simpl; exact Hexists).
      specialize (Hnext position flags _ Hex'). lia.
    + destruct rest as [|token' rest'].
      * simpl. rewrite length_app. simpl. lia.
      * specialize (IH position flags flag). rewrite Hexists in IH.
        simpl length in *. lia.
Qed.

Lemma find_by_position (flags : list Flag) :
  forall a k,
    map pos flags = map N.of_nat (seq a (length flags)) ->
    (a <= k)%nat ->
    find (fun flag => (pos flag =? N.of_nat k)%N) flags = nth_error flags (k - a).
Proof.
  induction flags as [|flag flags IH]; intros a k Hpos Hk; simpl.
  - now destruct (k - a)%nat.
  - simpl in Hpos. inversion Hpos as [[Hflag Hrest]]. rewrite Hflag.
    destruct (N.of_nat a =? N.of_nat k)%N eqn:E.
    + apply N.eqb_eq in E. apply Nat2N.inj in E. subst k.
      now rewrite Nat.sub_diag.
    + apply N.eqb_neq in E.
      assert (a <> k) by congruence.
      rewrite (IH (S a) k Hrest) by lia.
      replace (k - a)%nat with (S (k - S a)) by lia. reflexivity.
Qed.

(** X9. In an instruction built from tokens, a flag is found by its own
    position, and the position after it finds the next flag of the
    instruction, or nothing when the flag is the last one. This is what the
    test for the last flag and the modifier [-l] rely on. *)
Theorem from_vec_string_next_flag (uninit : N) (vec_s : list string)
    (i : nat) (flag : Flag) :
  (N.of_nat (length vec_s) < usize_modulus)%N ->
  nth_error (from_vec_string uninit vec_s) i = Some flag ->
  Flag_exists flag = true ->
  get_flag (from_vec_string uninit vec_s) (pos flag) = Some flag
  /\ get_flag (from_vec_string uninit vec_s) (usize_add (pos flag) 1)
     = nth_error (from_vec_string uninit vec_s) (S i)
  /\ get_flag_ptr (from_vec_string uninit vec_s) (usize_add (pos flag) 1)
     = nth_error (from_vec_string uninit vec_s) (S i).
Proof.
  intros Hlen Hnth Hex.
  pose proof (from_vec_string_loop_length uninit vec_s 0%N [] (Flag_new uninit)) as Hbound.
  change (Flag_exists (Flag_new uninit)) with false in Hbound. simpl in Hbound.
  fold (from_vec_string uninit vec_s) in Hbound.
  destruct (from_vec_string_loop_indices uninit vec_s 0%N [] (Flag_new uninit))
    as [Hidx|[_ Hone]].
  - lia.
  - reflexivity.
  - split; reflexivity.
  - fold (from_vec_string uninit vec_s) in Hidx.
    assert (Hi : (i < length (from_vec_string uninit vec_s))%nat)
      by (apply nth_error_Some; congruence).
    assert (Hpos : pos flag = N.of_nat i).
    { pose proof (f_equal (fun l => nth_error l i) Hidx) as H. simpl in H.
      rewrite !nth_error_map, Hnth in H.
      rewrite (nth_error_nth' _ 0%nat) in H by (rewrite length_seq; exact Hi).
      rewrite seq_nth in H by exact Hi. simpl in H. now inversion H. }
    assert (Hnext : usize_add (pos flag) 1 = N.of_nat (S i)).
    { rewrite Hpos, usize_add_1 by lia. lia. }
    unfold get_flag, get_flag_ptr. rewrite Hnext, Hpos.
    rewrite !(find_by_position _ 0) by (exact Hidx || lia).
    now rewrite !Nat.sub_0_r, Hnth.
  - fold (from_vec_string uninit vec_s) in Hone. rewrite Hone in Hnth.
    destruct i as [|[|i]]; simpl in Hnth; try discriminate.
    inversion Hnth; subst flag. discriminate Hex.
Qed.

Lemma from_vec_string_next_flag_witness :
  get_flag (from_vec_string 7 ["-f"; "a.txt"; "-l"; "-s"])
           (pos {| name := "-l"; arg := ""; pos := 1; mod_ := 0 |})
  = Some {| name := "-l"; arg := ""; pos := 1; mod_ := 0 |}
  /\ get_flag (from_vec_string 7 ["-f"; "a.txt"; "-l"; "-s"])
       (usize_add (pos {| name := "-l"; arg := ""; pos := 1; mod_ := 0 |}) 1)
     = nth_error (from_vec_string 7 ["-f"; "a.txt"; "-l"; "-s"]) 2
  /\ get_flag_ptr (from_vec_string 7 ["-f"; "a.txt"; "-l"; "-s"])
       (usize_add (pos {| name := "-l"; arg := ""; pos := 1; mod_ := 0 |}) 1)
     = nth_error (from_vec_string 7 ["-f"; "a.txt"; "-l"; "-s"]) 2.
Proof.
  apply (from_vec_string_next_flag 7 ["-f"; "a.txt"; "-l"; "-s"] 1).
  - vm_compute. reflexivity.
  - reflexivity.
  - reflexivity.
Defined.

(** ** Orders and [std::sort] *)

(** A comparison under which two elements not less than one another are
    equal: the orders of characters and of strings. *)
Definition total_order {A : Type} (cmp : A -> A -> bool) : Prop :=
  (forall x, cmp x x = false)
  /\ (forall x y z, cmp x y = true -> cmp y z = true -> cmp x z = true)
  /\ (forall x y, cmp x y = false -> cmp y x = false -> x = y).

Lemma total_order_strict_weak {A : Type} (cmp : A -> A -> bool) :
  total_order cmp -> strict_weak_order cmp.
Proof.
  intros [Hirr [Htrans Htot]]. constructor.
  - exact Hirr.
  - exact Htrans.
  - intros x y z H1 H2 H3 H4.
    rewrite (Htot x y H1 H2). now split.
Qed.

(** Under a total order a sorted list is the only sorted permutation of its
    elements. *)
Lemma sorted_permutation_unique {A : Type} (cmp : A -> A -> bool) :
  total_order cmp ->
  forall l1 l2,
    StronglySorted (fun x y => cmp y x = false) l1 ->
    StronglySorted (fun x y => cmp y x = false) l2 ->
    Permutation l1 l2 ->
    l1 = l2.
Proof.
  intros [Hirr [Htrans Htot]].
  induction l1 as [|x l1 IH]; intros l2 H1 H2 Hperm.
  - apply Permutation_nil in Hperm. now subst.
  - destruct l2 as [|y l2].
    + apply Permutation_sym, Permutation_nil in Hperm. discriminate.
    + inversion H1 as [|? ? Hs1 Hx]; subst.
      inversion H2 as [|? ? Hs2 Hy]; subst.
      assert (Hxy : x = y).
      { assert (Hin1 : In x (y :: l2))
          by (eapply Permutation_in; [exact Hperm | now left]).
        assert (Hin2 : In y (x :: l1))
          by (eapply Permutation_in; [apply Permutation_sym, Hperm | now left]).
        destruct Hin1 as [->|Hin1]; [reflexivity|].
        destruct Hin2 as [->|Hin2]; [reflexivity|].
        rewrite Forall_forall in Hx, Hy.
        apply Htot; [apply Hy | apply Hx]; assumption. }
      subst y. f_equal.
      apply IH; [assumption | assumption | eapply Permutation_cons_inv; exact Hperm].
Qed.

Lemma std_sort_total (std std' : StdLib) {A : Type} (cmp : A -> A -> bool)
    (l l' : list A) :
  total_order cmp ->
  Permutation l l' ->
  std_sort std cmp l = std_sort std' cmp l'.
Proof.
  intros Htot Hperm.
  pose proof (total_order_strict_weak cmp Htot) as Hswo.
  apply (sorted_permutation_unique cmp Htot).
  - now apply std_sort_sorted.
  - now apply std_sort_sorted.
  - eapply perm_trans; [now apply std_sort_perm|].
    eapply perm_trans; [exact Hperm|].
    apply Permutation_sym. now apply std_sort_perm.
Qed.

Lemma ascii_ltb_lt (a b : ascii) :
  Ascii.ltb a b = true <-> (N_of_ascii a < N_of_ascii b)%N.
Proof.
  unfold Ascii.ltb, Ascii.compare, N.lt.
  destruct (N_of_ascii a ?= N_of_ascii b)%N; split; congruence.
Qed.

Lemma ascii_ltb_total : total_order Ascii.ltb.
Proof.
  split; [|split].
  - intros x. apply not_true_iff_false. rewrite ascii_ltb_lt. lia.
  - intros x y z H1 H2. apply ascii_ltb_lt in H1, H2. apply ascii_ltb_lt. lia.
  - intros x y H1 H2. apply not_true_iff_false in H1, H2.
    rewrite ascii_ltb_lt in H1, H2.
    rewrite <- (ascii_N_embedding x), <- (ascii_N_embedding y). f_equal. lia.
Qed.

Lemma string_compare_refl (s : string) : String.compare s s = Eq.
Proof.
  induction s as [|c s IH]; simpl; [reflexivity|].
  unfold Ascii.compare. now rewrite N.compare_refl.
Qed.

Lemma string_compare_lt_trans (s1 : string) :
  forall s2 s3,
    String.compare s1 s2 = Lt -> String.compare s2 s3 = Lt ->
    String.compare s1 s3 = Lt.
Proof.
  induction s1 as [|c1 s1 IH]; intros [|c2 s2] [|c3 s3]; simpl;
    try discriminate; try reflexivity.
  unfold Ascii.compare.
  destruct (N_of_ascii c1 ?= N_of_ascii c2)%N eqn:E12;
    destruct (N_of_ascii c2 ?= N_of_ascii c3)%N eqn:E23;
    try discriminate; intros H1 H2.
  - apply N.compare_eq_iff in E12, E23. rewrite E12, E23, N.compare_refl.
    eapply IH; eassumption.
  - apply N.compare_eq_iff in E12. now rewrite E12, E23.
  - apply N.compare_eq_iff in E23. now rewrite <- E23, E12.
  - rewrite N.compare_lt_iff in E12, E23.
    assert (E13 : (N_of_ascii c1 ?= N_of_ascii c3)%N = Lt)
      by (apply N.compare_lt_iff; lia).
    now rewrite E13.
Qed.

Lemma string_ltb_total : total_order String.ltb.
Proof.
  unfold String.ltb. split; [|split].
  - intros x. now rewrite string_compare_refl.
  - intros x y z H1 H2.
    destruct (String.compare x y) eqn:E1; try discriminate.
    destruct (String.compare y z) eqn:E2; try discriminate.
    now rewrite (string_compare_lt_trans x y z E1 E2).
  - intros x y H1 H2. rewrite String.compare_antisym in H2.
    destruct (String.compare x y) eqn:E; try discriminate.
    now apply String.compare_eq_iff.
Qed.

(** ** [Strings::are_anagrams], [Strings::are_palindromes], [std::unique] *)

Lemma length_list_ascii (s : string) :
  length (list_ascii_of_string s) = String.length s.
Proof. induction s as [|c s IH]; simpl; [reflexivity | now rewrite IH]. Qed.

Lemma are_anagrams_iff (std : StdLib) (first second : string) :
  are_anagrams std first second = true
  <-> Permutation (list_ascii_of_string first) (list_ascii_of_string second).
Proof.
  pose proof (total_order_strict_weak _ ascii_ltb_total) as Hswo.
  unfold are_anagrams. split.
  - destruct (String.length first =? String.length second)%nat; simpl; [|discriminate].
    intros H. apply String.eqb_eq in H.
    apply (f_equal list_ascii_of_string) in H.
    rewrite !list_ascii_of_string_of_list_ascii in H.
    eapply perm_trans; [apply Permutation_sym, (std_sort_perm std _ Ascii.ltb _ Hswo)|].
    rewrite H. now apply std_sort_perm.
  - intros Hperm.
    pose proof (Permutation_length Hperm) as Hlen.
    rewrite !length_list_ascii in Hlen. rewrite Hlen, Nat.eqb_refl. simpl.
    apply String.eqb_eq. f_equal.
    now apply std_sort_total; [apply ascii_ltb_total|].
Qed.

(** X10. Whatever the sort of the platform, two strings are anagrams for
    [are_anagrams] exactly when one holds the characters of the other,
    each as many times; so the relation is symmetric and does not depend
    on the platform. *)
Theorem are_anagrams_permutation (std std' : StdLib) (first second : string) :
  (are_anagrams std first second = true
   <-> Permutation (list_ascii_of_string first) (list_ascii_of_string second))
  /\ are_anagrams std first second = are_anagrams std' second first.
Proof.
  split; [apply are_anagrams_iff|].
  destruct (are_anagrams std first second) eqn:E1;
    destruct (are_anagrams std' second first) eqn:E2; try reflexivity.
  - apply are_anagrams_iff in E1. apply not_true_iff_false in E2.
    exfalso. apply E2. apply are_anagrams_iff. now apply Permutation_sym.
  - apply are_anagrams_iff in E2. apply not_true_iff_false in E1.
    exfalso. apply E1. apply are_anagrams_iff. now apply Permutation_sym.
Qed.

Lemma are_palindromes_iff (first second : string) :
  are_palindromes first second = true
  <-> list_ascii_of_string first = rev (list_ascii_of_string second).
Proof.
  unfold are_palindromes. split.
  - destruct (String.length first =? String.length second)%nat; simpl; [|discriminate].
    intros H. apply String.eqb_eq in H. rewrite H.
    now rewrite list_ascii_of_string_of_list_ascii.
  - intros H.
    assert (Hlen : String.length first = String.length second).
    { rewrite <- !length_list_ascii, H. apply length_rev. }
    rewrite Hlen, Nat.eqb_refl. simpl. apply String.eqb_eq.
    now rewrite <- H, string_of_list_ascii_of_string.
Qed.

(** X11. Two strings are palindromes of one another for [are_palindromes]
    exactly when the first is the second read backwards; the relation is
    symmetric. *)
Theorem are_palindromes_reverse (first second : string) :
  (are_palindromes first second = true
   <-> list_ascii_of_string first = rev (list_ascii_of_string second))
  /\ are_palindromes first second = are_palindromes second first.
Proof.
  split; [apply are_palindromes_iff|].
  destruct (are_palindromes first second) eqn:E1;
    destruct (are_palindromes second first) eqn:E2; try reflexivity.
  - apply are_palindromes_iff in E1. apply not_true_iff_false in E2.
    exfalso. apply E2. apply are_palindromes_iff. now rewrite E1, rev_involutive.
  - apply are_palindromes_iff in E2. apply not_true_iff_false in E1.
    exfalso. apply E1. apply are_palindromes_iff. now rewrite E2, rev_involutive.
Qed.

(** No two neighbours of the list are equal. *)
Fixpoint no_equal_neighbours (l : list string) : Prop :=
  match l with
  | [] => True
  | x :: rest =>
      match rest with
      | [] => True
      | y :: _ => x <> y /\ no_equal_neighbours rest
      end
  end.

Lemma unique_head (x : string) (l : list string) :
  exists rest, unique (x :: l) = x :: rest.
Proof.
  revert x. induction l as [|y l IH]; intros x.
  - now exists [].
  - simpl. destruct (String.eqb x y) eqn:E.
    + apply String.eqb_eq in E. subst y. apply (IH x).
    + now exists (unique (y :: l)).
Qed.

Lemma unique_cons_cons (x y : string) (l : list string) :
  unique (x :: y :: l)
  = if String.eqb x y then unique (y :: l) else x :: unique (y :: l).
Proof. reflexivity. Qed.

Lemma unique_in (l : list string) (x : string) : In x (unique l) <-> In x l.
Proof.
  induction l as [|y l IH]; [tauto|].
  destruct l as [|z l]; [tauto|].
  rewrite unique_cons_cons. destruct (String.eqb y z) eqn:E.
  - apply String.eqb_eq in E. subst z. rewrite IH. simpl. tauto.
  - simpl In at 1. rewrite IH. simpl. tauto.
Qed.

Lemma unique_no_equal_neighbours (l : list string) :
  no_equal_neighbours (unique l).
Proof.
  induction l as [|x l IH]; [exact I|].
  destruct l as [|y l]; [exact I|].
  rewrite unique_cons_cons. destruct (String.eqb x y) eqn:E; [exact IH|].
  apply String.eqb_neq in E.
  destruct (unique_head y l) as [rest Hrest].
  rewrite Hrest in *. simpl. split; [exact E | exact IH].
Qed.

(** X12. [std::unique] as the commands use it keeps the members of the
    list, drops nothing but a word equal to the one before it, and leaves
    no two equal neighbours; equal words that are not neighbours stay. *)
Theorem unique_neighbours (l : list string) :
  (forall x, In x (unique l) <-> In x l)
  /\ no_equal_neighbours (unique l)
  /\ (no_equal_neighbours l -> unique l = l).
Proof.
  split; [intros x; apply unique_in|].
  split; [apply unique_no_equal_neighbours|].
  induction l as [|x l IH]; [reflexivity|].
  destruct l as [|y l]; [reflexivity|].
  intros [Hxy Hrest]. rewrite unique_cons_cons.
  apply String.eqb_neq in Hxy. rewrite Hxy. f_equal. now apply IH.
Qed.

Example unique_keeps_distant_repeats :
  unique ["tac"; "tac"; "act"; "tac"] = ["tac"; "act"; "tac"].
Proof. reflexivity. Qed.

(** ** What the commands compute *)

Lemma by_length_reverse_strict_weak_order : strict_weak_order (get_reverse true).
Proof.
  simpl. constructor.
  - intros x. apply Nat.ltb_irrefl.
  - intros x y z H1 H2. apply Nat.ltb_lt in H1, H2. apply Nat.ltb_lt. lia.
  - intros x y z H1 H2 H3 H4. apply Nat.ltb_ge in H1, H2, H3, H4.
    split; apply Nat.ltb_ge; lia.
Qed.

Lemma string_gtb_total : total_order (get_reverse false).
Proof.
  destruct string_ltb_total as [Hirr [Htrans Htot]]. simpl.
  split; [|split].
  - intros x. apply Hirr.
  - intros x y z H1 H2. eapply Htrans; eassumption.
  - intros x y H1 H2. now apply Htot.
Qed.

(** The order a sorting command leaves its words in, by its direction and
    the modifier of its flag: no word comes before a shorter one (or a
    longer one), or before a smaller one (or a greater one) in the order
    of strings. *)
Definition in_order (c : Command) (by_length : bool) (a b : string) : Prop :=
  match c, by_length with
  | ShowWordsReverse, true => (String.length b <= String.length a)%nat
  | ShowWordsReverse, false => String.ltb a b = false
  | _, true => (String.length a <= String.length b)%nat
  | _, false => String.ltb b a = false
  end.

(** X13. [-s] and [-rs] report all the words of the source, each as many
    times as it occurs, in ascending and in descending order; the order is
    that of the lengths when the modifier of the flag is 1 and that of the
    strings otherwise. *)
Theorem execute_sorts_words (std : StdLib) (fs : FileSystem) (c : Command)
    (flag : Flag) (ops : Operations) :
  c = ShowWords \/ c = ShowWordsReverse ->
  exists words,
    execute std fs c flag ops
    = Output_new_ok (flag_string_stream_structure flag words)
    /\ Permutation words (get_words (source ops))
    /\ StronglySorted (in_order c (mod_ flag =? 1)%Z) words.
Proof.
  intros [-> | ->]; simpl execute; destruct (mod_ flag =? 1)%Z;
    eexists; (split; [reflexivity|]); split.
  - apply std_sort_perm, by_length_strict_weak_order.
  - eapply StronglySorted_impl;
      [|apply std_sort_sorted, by_length_strict_weak_order].
    simpl. intros a b H. now apply Nat.ltb_ge in H.
  - apply std_sort_perm, total_order_strict_weak, string_ltb_total.
  - apply (std_sort_sorted std _ (get_default false)),
      total_order_strict_weak, string_ltb_total.
  - apply std_sort_perm, by_length_reverse_strict_weak_order.
  - eapply StronglySorted_impl;
      [|apply std_sort_sorted, by_length_reverse_strict_weak_order].
    simpl. intros a b H. now apply Nat.ltb_ge in H.
  - apply std_sort_perm, total_order_strict_weak, string_gtb_total.
  - apply (std_sort_sorted std _ (get_reverse false)),
      total_order_strict_weak, string_gtb_total.
Qed.

Lemma execute_sorts_words_witness :
  exists words,
    execute reference_std (constant_fs "b a") ShowWordsReverse
      {| name := "-rs"; arg := ""; pos := 1; mod_ := 1 |}
      {| file_in := "p"; file_out := ""; source := "bb a ccc"; is_panicked := false |}
    = Output_new_ok
        (flag_string_stream_structure
           {| name := "-rs"; arg := ""; pos := 1; mod_ := 1 |} words)
    /\ Permutation words
         (get_words
            (source {| file_in := "p"; file_out := ""; source := "bb a ccc";
                       is_panicked := false |}))
    /\ StronglySorted
         (in_order ShowWordsReverse
            (mod_ {| name := "-rs"; arg := ""; pos := 1; mod_ := 1 |} =? 1)%Z)
         words.
Proof.
  apply (execute_sorts_words reference_std (constant_fs "b a") ShowWordsReverse).
  now right.
Defined.

(** X14. Without the modifier the report of [-s] and of [-rs] does not
    depend on the sort of the platform: the order of strings leaves one
    sorted arrangement only. *)
Theorem execute_sorts_words_alike (std std' : StdLib) (fs : FileSystem)
    (c : Command) (flag : Flag) (ops : Operations) :
  c = ShowWords \/ c = ShowWordsReverse ->
  mod_ flag <> 1%Z ->
  execute std fs c flag ops = execute std' fs c flag ops.
Proof.
  intros Hc Hmod. apply Z.eqb_neq in Hmod.
  destruct Hc as [-> | ->]; simpl; rewrite Hmod; do 2 f_equal.
  - apply std_sort_total; [apply string_ltb_total | apply Permutation_refl].
  - apply std_sort_total; [apply string_gtb_total | apply Permutation_refl].
Qed.

Lemma execute_sorts_words_alike_witness :
  execute reference_std (constant_fs "b a") ShowWords
    {| name := "-s"; arg := ""; pos := 1; mod_ := 0 |}
    {| file_in := "p"; file_out := ""; source := "bb a ccc"; is_panicked := false |}
  = execute reversing_std (constant_fs "b a") ShowWords
      {| name := "-s"; arg := ""; pos := 1; mod_ := 0 |}
      {| file_in := "p"; file_out := ""; source := "bb a ccc"; is_panicked := false |}.
Proof.
  apply execute_sorts_words_alike.
  - now left.
  - discriminate.
Defined.

Lemma collect_related_in (related : string -> string -> bool)
    (words_source words_flag : list string) (w : string) :
  In w (collect_related related words_source words_flag)
  <-> In w words_source
      /\ exists second, In second words_flag /\ related w second = true.
Proof.
  unfold collect_related. rewrite in_flat_map. split.
  - intros [first [Hfirst Hin]]. apply in_flat_map in Hin.
    destruct Hin as [second [Hsecond Hin]].
    destruct (related first second) eqn:E; [|contradiction].
    destruct Hin as [->|[]]. split; [exact Hfirst|]. now exists second.
  - intros [Hw [second [Hsecond Hrel]]]. exists w. split; [exact Hw|].
    apply in_flat_map. exists second. split; [exact Hsecond|].
    rewrite Hrel. now left.
Qed.

(** X15. [-a] reports the words of the source that hold the characters of
    some word of its argument, each as many times, and no other word;
    [-p] reports those that are some word of its argument read backwards.
    In both lists no two neighbours are equal. *)
Theorem execute_lists_related_words (std : StdLib) (fs : FileSystem)
    (flag : Flag) (ops : Operations) :
  (exists words,
      execute std fs ShowAnagrams flag ops
      = Output_new_ok (flag_string_stream_structure flag words)
      /\ no_equal_neighbours words
      /\ forall w,
           In w words
           <-> In w (get_words (source ops))
               /\ exists second,
                    In second (get_words (arg flag))
                    /\ Permutation (list_ascii_of_string w)
                                   (list_ascii_of_string second))
  /\ (exists words,
        execute std fs ShowPalindromes flag ops
        = Output_new_ok (flag_string_stream_structure flag words)
        /\ no_equal_neighbours words
        /\ forall w,
             In w words
             <-> In w (get_words (source ops))
                 /\ exists second,
                      In second (get_words (arg flag))
                      /\ list_ascii_of_string w = rev (list_ascii_of_string second)).
Proof.
  split; eexists; (split; [reflexivity|]);
    (split; [apply unique_no_equal_neighbours|]); intros w;
    rewrite unique_in, collect_related_in;
    (split; intros [Hw [second [Hsecond Hrel]]]; (split; [exact Hw|]);
     exists second; (split; [exact Hsecond|])).
  - now apply (are_anagrams_iff std).
  - now apply (are_anagrams_iff std).
  - now apply are_palindromes_iff.
  - now apply are_palindromes_iff.
Qed.

(* ------------------------------------------------------------------ *)
(** ** What [validate] may change *)

Lemma update_flag_ptr_fields (inst : Instruction) (index : N) (v : Z) :
  map name (update_flag_ptr inst index v) = map name inst
  /\ map arg (update_flag_ptr inst index v) = map arg inst
  /\ map pos (update_flag_ptr inst index v) = map pos inst.
Proof.
  induction inst as [|flag inst [IHn [IHa IHp]]]; [now repeat split|].
  simpl. destruct (pos flag =? index)%N; simpl.
  - now repeat split.
  - now rewrite IHn, IHa, IHp.
Qed.

(** X16. A call of [validate] leaves the names, the arguments and the
    positions of all flags as they were, and never touches the panic mark;
    a call that fails changes nothing at all. Only [-l] writes to the
    instruction, only [-f] to the input path and the source, only [-o] to
    the output path. *)
Theorem validate_frame (fs : FileSystem) (c : Command) (flag : Flag)
    (inst : Instruction) (ops : Operations) :
  exists output inst' ops',
    validate fs c flag inst ops = (output, inst', ops')
    /\ map name inst' = map name inst
    /\ map arg inst' = map arg inst
    /\ map pos inst' = map pos inst
    /\ is_panicked ops' = is_panicked ops
    /\ (is_err output = true -> inst' = inst /\ ops' = ops)
    /\ (c <> WordsConsiderLength -> inst' = inst)
    /\ (c <> SourceFile -> file_in ops' = file_in ops /\ source ops' = source ops)
    /\ (c <> OutputFile -> file_out ops' = file_out ops).
Proof.
  destruct (update_flag_ptr_fields inst (usize_add (pos flag) 1) 1)
    as [Hn [Ha Hp]].
  destruct c; simpl;
    repeat match goal with
           | |- context [if ?b then _ else _] => destruct b
           | |- context [match ?o with Some _ => _ | None => _ end] => destruct o
           end;
    do 3 eexists; (split; [reflexivity|]);
    repeat split; try reflexivity; try assumption; try discriminate;
    try (intros H; now contradiction H);
    try match goal with H : ?x <> ?x |- _ => now contradiction H end.
Qed.

(* ------------------------------------------------------------------ *)
(** ** The counting commands *)

Lemma space_not_digit (c : ascii) : is_space c = true -> is_digit c = false.
Proof.
  unfold is_space, is_digit. intros H.
  apply orb_true_iff in H. apply andb_false_iff. left. apply Nat.leb_gt.
  destruct H as [H | H].
  - apply Nat.eqb_eq in H. lia.
  - apply andb_true_iff in H. destruct H as [_ H]. apply Nat.leb_le in H. lia.
Qed.

Lemma count_numbers_from_words (s : string) :
  forall word,
    (count_numbers_from (empty word) s + (if empty word then 0 else 1)
     <= N.of_nat (length (words_from s word)))%N.
Proof.
  induction s as [|c s IH]; intros word.
  - simpl. destruct (empty word); simpl; lia.
  - simpl. destruct (is_space c) eqn:Hc.
    + rewrite (space_not_digit c Hc), andb_false_r. simpl.
      specialize (IH ""). change (empty "") with true in IH. cbv iota in IH.
      destruct (empty word); simpl length; lia.
    + specialize (IH (word ++ String c "")%string).
      rewrite empty_snoc in IH.
      destruct (empty word); simpl andb; cbv iota;
        [match goal with |- context [if ?b then _ else _] => destruct b end|];
        lia.
Qed.

Lemma count_numbers_from_digits (s : string) :
  forall boundary, (count_numbers_from boundary s <= count_if is_digit s)%N.
Proof.
  induction s as [|c s IH]; intros boundary; [reflexivity|].
  simpl. specialize (IH (is_space c)).
  destruct boundary; simpl andb; cbv iota;
    destruct (is_digit c); simpl andb; cbv iota; try lia.
  destruct (number_ends s); lia.
Qed.

(** X17. On any text the count of numbers ([-dd]) is at most the count of
    words ([-w]) and at most the count of digits ([-d]): a number starts a
    word and starts with a digit. *)
Theorem count_matches_numbers_bounds (target : string) :
  (count_matches_numbers target <= count_matches_words target)%N
  /\ (count_matches_numbers target <= count_if is_digit target)%N.
Proof.
  split.
  - unfold count_matches_numbers, count_matches_words, get_words.
    pose proof (count_numbers_from_words target "") as H. simpl in H. lia.
  - apply count_numbers_from_digits.
Qed.

(* ------------------------------------------------------------------ *)
(** ** Registering commands *)

Lemma existsb_indexed (l : list string) (key : string) :
  existsb (fun entry : nat * string => String.eqb (snd entry) key) (indexed l) = true
  <-> In key l.
Proof.
  rewrite existsb_exists. split.
  - intros [[i s] [Hin Heq]]. simpl in Heq. apply String.eqb_eq in Heq. subst s.
    apply in_indexed in Hin. eapply nth_error_In; eassumption.
  - intros H. apply In_nth_error in H. destruct H as [i H].
    exists (i, key). split; [now apply in_indexed | apply String.eqb_refl].
Qed.

Lemma CommandsHolder_exists_in (h : CommandsHolder) (c : Command) :
  CommandsHolder_exists h (caller c) (alias c) = true <-> In c h.
Proof.
  unfold CommandsHolder_exists, callers, aliases.
  destruct (existsb _ (indexed (map caller h))) eqn:E; simpl.
  - apply existsb_indexed in E. apply in_map_iff in E.
    destruct E as [c' [Heq Hin]]. apply caller_inj in Heq. subst c'.
    rewrite existsb_indexed. split; [now intros _|].
    intros _. now apply in_map.
  - split; [discriminate|]. intros H.
    assert (Ht : existsb (fun entry : nat * string => String.eqb (snd entry) (caller c))
                   (indexed (map caller h)) = true).
    { apply existsb_indexed. now apply in_map. }
    congruence.
Qed.

(** X18. [CommandsHolder::exists] looks for the caller and for the alias
    apart: it answers yes as soon as some command has the caller and some
    command, the same or another, has the alias. *)
Theorem CommandsHolder_exists_apart (h : CommandsHolder) (c a : string) :
  CommandsHolder_exists h c a = true
  <-> (exists x, In x h /\ caller x = c) /\ (exists y, In y h /\ alias y = a).
Proof.
  unfold CommandsHolder_exists, callers, aliases.
  destruct (existsb _ (indexed (map caller h))) eqn:E; simpl.
  - apply existsb_indexed in E. rewrite existsb_indexed, !in_map_iff in *.
    destruct E as [x [Hx Hin]]. split.
    + intros [y [Hy Hiny]]. split; [now exists x | now exists y].
    + intros [_ [y [Hiny Hy]]]. now exists y.
  - split; [discriminate|]. intros [[x [Hin Hx]] _].
    assert (Ht : existsb (fun entry : nat * string => String.eqb (snd entry) c)
                   (indexed (map caller h)) = true).
    { apply existsb_indexed, in_map_iff. now exists x. }
    congruence.
Qed.

(** X19. After [Engine::add] the command answers to its caller and to its
    alias, whatever the order in which the maps are visited; the commands
    registered before stay, a command is never held twice, and adding a
    command again changes nothing. *)
Theorem Engine_add_registers (std : StdLib) (command : Command) (e : Engine) :
  resolve std (commands (Engine_add command e)) (caller command) = Some command
  /\ resolve std (commands (Engine_add command e)) (alias command) = Some command
  /\ (forall c, In c (commands (Engine_add command e))
                <-> c = command \/ In c (commands e))
  /\ (NoDup (commands e) -> NoDup (commands (Engine_add command e)))
  /\ Engine_add command (Engine_add command e) = Engine_add command e.
Proof.
  assert (Hin : forall c, In c (commands (Engine_add command e))
                          <-> c = command \/ In c (commands e)).
  { intros c. unfold Engine_add.
    destruct (CommandsHolder_exists _ _ _) eqn:E; simpl.
    - apply CommandsHolder_exists_in in E. split; [tauto|].
      intros [-> | H]; assumption.
    - unfold CommandsHolder_add. rewrite in_app_iff. simpl.
      split; [intros [H | [H | []]]; auto | intros [H | H]; auto]. }
  assert (Hc : In command (commands (Engine_add command e))).
  { apply Hin. now left. }
  repeat split.
  - now apply resolve_caller.
  - now apply resolve_alias.
  - apply Hin.
  - apply Hin.
  - intros Hnd. unfold Engine_add.
    destruct (CommandsHolder_exists _ _ _) eqn:E; simpl; [exact Hnd|].
    unfold CommandsHolder_add. apply NoDup_app; [exact Hnd | | ].
    + constructor; [intros [] | constructor].
    + intros x Hx [<- | []].
      apply CommandsHolder_exists_in in Hx. congruence.
  - unfold Engine_add at 1.
    destruct (CommandsHolder_exists (commands (Engine_add command e)) _ _) eqn:E;
      [reflexivity|].
    apply CommandsHolder_exists_in in Hc. congruence.
Qed.

(* ------------------------------------------------------------------ *)
(** ** The validation pass as a whole *)





Lemma is_err_res (output : Output) : is_err output = true -> res output = Err.
Proof. unfold is_err. destruct (res output); (reflexivity || discriminate). Qed.


(** The loop pushes nothing, or it pushes one error and panics. *)
Lemma validation_loop_outcome (std : StdLib) (fs : FileSystem) (h : CommandsHolder) :
  forall n i st,
    (is_panicked (v_operations (validation_loop std fs h n i st))
     = is_panicked (v_operations st)
     /\ v_outputs (validation_loop std fs h n i st) = v_outputs st)
    \/ (is_panicked (v_operations (validation_loop std fs h n i st)) = true
        /\ exists o,
             v_outputs (validation_loop std fs h n i st) = v_outputs st ++ [o]
             /\ res o = Err).
Proof.
  induction n as [|n IH]; intros i st; [now left|].
  destruct (nth_error (v_inst st) i) as [flag|] eqn:Hnth.
  - destruct (resolve std h (name flag)) as [command|] eqn:Hres.
    + destruct (validate fs command flag (v_inst st) (v_operations st))
        as [[output inst] ops] eqn:Hval.
      destruct (is_err output) eqn:Herr.
      * rewrite (validation_loop_turn_err std fs h n i st flag command output inst ops)
          by assumption.
        right. split; [reflexivity|]. exists output.
        split; [reflexivity | now apply is_err_res].
      * rewrite (validation_loop_turn_ok std fs h n i st flag command output inst ops)
          by assumption.
        apply validate_keeps in Hval. destruct Hval as [Hp _].
        destruct (IH (S i) (record_validated st command flag inst ops))
          as [[H1 H2] | H]; simpl in *.
        -- left. split; congruence.
        -- right. exact H.
    + simpl. unfold get_flags. rewrite Hnth, Hres.
      right. split; [reflexivity|]. eexists. split; reflexivity.
  - simpl. unfold get_flags. rewrite Hnth. now left.
Qed.


Lemma working_instruction_abort (fs : FileSystem) (uninit : N)
    (raw_args : list string) (e : Engine) (t : Trace) :
  working_instruction fs uninit raw_args e = Some (inr t) ->
  exists message, t = abort e message.
Proof.
  unfold working_instruction. intros H.
  break_match_in H; inversion H; eexists; reflexivity.
Qed.

(** X21. A run on a fresh engine that hands back a result has ended in one
    of two ways. Either it reached the execution pass, and then every
    output it holds is a success; or it did not, and then it holds one or
    two outputs, all errors. *)
Theorem run_holds_errors_or_results (std : StdLib) (fs : FileSystem)
    (uninit : N) (raw_args : list string) (h : CommandsHolder) (t : Trace) :
  execute_trace std fs uninit raw_args (Engine_fresh h) = Some t ->
  match t_executed t with
  | Some _ => Forall (fun o => res o = Ok) (outputs (t_engine t))
  | None =>
      Forall (fun o => res o = Err) (outputs (t_engine t))
      /\ (1 <= length (outputs (t_engine t)) <= 2)%nat
  end.
Proof.
  unfold execute_trace.
  destruct (working_instruction fs uninit raw_args (Engine_fresh h))
    as [[inst | early]|] eqn:Hw; intros Ht; inversion Ht; subst t; clear Ht.
  - unfold dispatch.
    pose proof (validation_loop_outcome std fs h (length inst) 0
                  (validation_start (Engine_fresh h) inst)) as Hcase.
    change (validation_loop std fs h (length inst) 0
              (validation_start (Engine_fresh h) inst))
      with (validation_pass std fs (Engine_fresh h) inst) in Hcase.
    change (is_panicked (v_operations (validation_start (Engine_fresh h) inst)))
      with false in Hcase.
    change (v_outputs (validation_start (Engine_fresh h) inst))
      with (@nil Output) in Hcase.
    simpl app in Hcase.
    destruct Hcase as [[Hp Hout] | [Hp [o [Hout Ho]]]];
      unfold source_check;
      destruct (empty _ && empty _); simpl; rewrite ?Hp, ?Hout; simpl.
    + split; [|lia]. now repeat constructor.
    + apply Forall_forall. intros o Ho.
      apply execution_loop_outputs in Ho. destruct Ho as [[] | Ho]. exact Ho.
    + split; [|lia]. now repeat constructor.
    + split; [|lia]. now repeat constructor.
  - apply working_instruction_abort in Hw. destruct Hw as [message ->].
    simpl. split; [|lia]. now repeat constructor.
Qed.

Lemma run_holds_errors_or_results_witness :
  exists t,
    execute_trace reference_std (constant_fs "b a") 0 ["-f"; "p"; "-w"; "-z"]
      (Engine_fresh (commands create_engine)) = Some t
    /\ match t_executed t with
       | Some _ => Forall (fun o => res o = Ok) (outputs (t_engine t))
       | None =>
           Forall (fun o => res o = Err) (outputs (t_engine t))
           /\ (1 <= length (outputs (t_engine t)) <= 2)%nat
       end.
Proof.
  eexists. split.
  - vm_compute. reflexivity.
  - apply (run_holds_errors_or_results reference_std (constant_fs "b a") 0
             ["-f"; "p"; "-w"; "-z"] (commands create_engine)).
    vm_compute. reflexivity.
Defined.

(* ------------------------------------------------------------------ *)
(** ** Runs on an engine that writes to a file *)






(* ------------------------------------------------------------------ *)
(** ** Arguments read from a file *)

Lemma flag_exists_one (flag : Flag) :
  name flag = "-i" \/ name flag = "--input" ->
  flag_exists [flag] (caller InputFile) (alias InputFile) = true
  /\ Flag_exists flag = true.
Proof.
  unfold flag_exists, Flag_exists. simpl. intros [-> | ->]; split; reflexivity.
Qed.

(** X23. A run whose only flag is the input-file flag, on a file that is
    there, is the run on the words of that file, as long as these hold no
    input-file flag themselves: the same result, the same file written,
    the same engine afterwards. *)
Theorem input_file_is_read_as_arguments (std : StdLib) (fs : FileSystem)
    (uninit : N) (raw_args : list string) (flag : Flag) (e : Engine) :
  from_vec_string uninit raw_args = [flag] ->
  name flag = "-i" \/ name flag = "--input" ->
  arg flag <> "" ->
  File_exists fs (arg flag) = true ->
  flag_exists
    (from_vec_string uninit (get_words (File_read_unchecked fs (arg flag))))
    "-i" "--input" = false ->
  Engine_execute std fs uninit raw_args e
  = Engine_execute std fs uninit (get_words (File_read_unchecked fs (arg flag))) e.
Proof.
  intros Hinst Hname Harg Hfile Hwords.
  pose proof (from_vec_string_first uninit raw_args) as Hfirst.
  rewrite Hinst in Hfirst. simpl in Hfirst.
  destruct (flag_exists_one flag Hname) as [Hflag Hex].
  assert (Hempty : Flag_is_empty flag = false).
  { unfold Flag_is_empty. destruct (empty (arg flag)) eqn:E; [|reflexivity].
    apply empty_true in E. contradiction. }
  unfold Engine_execute, execute_trace.
  assert (Hleft : working_instruction fs uninit raw_args e
                  = Some (inl (from_vec_string uninit
                                 (get_words (File_read_unchecked fs (arg flag)))))).
  { unfold working_instruction. rewrite Hinst, Hflag.
    unfold size, get_flag_ptr. simpl. rewrite (Hfirst Hex). simpl.
    now rewrite Hempty, Hfile. }
  assert (Hright : working_instruction fs uninit
                     (get_words (File_read_unchecked fs (arg flag))) e
                   = Some (inl (from_vec_string uninit
                                  (get_words (File_read_unchecked fs (arg flag)))))).
  { unfold working_instruction.
    change (caller InputFile) with "-i". change (alias InputFile) with "--input".
    now rewrite Hwords. }
  now rewrite Hleft, Hright.
Qed.

Lemma input_file_is_read_as_arguments_witness :
  Engine_execute reference_std (constant_fs "-f words.txt -w") 0
    ["--input"; "args.txt"] create_engine
  = Engine_execute reference_std (constant_fs "-f words.txt -w") 0
      (get_words
         (File_read_unchecked (constant_fs "-f words.txt -w")
            (arg {| name := "--input"; arg := "args.txt"; pos := 0; mod_ := 0 |})))
      create_engine.
Proof.
  apply (input_file_is_read_as_arguments reference_std
           (constant_fs "-f words.txt -w") 0 ["--input"; "args.txt"]
           {| name := "--input"; arg := "args.txt"; pos := 0; mod_ := 0 |}).
  - reflexivity.
  - now right.
  - discriminate.
  - reflexivity.
  - reflexivity.
Defined.

(** X24. A run whose only flag is the input-file flag reports one error and
    validates nothing when the flag has no argument or names a file that
    is not there. *)
Theorem input_file_errors (std : StdLib) (fs : FileSystem)
    (uninit : N) (raw_args : list string) (flag : Flag) (h : CommandsHolder) :
  from_vec_string uninit raw_args = [flag] ->
  name flag = "-i" \/ name flag = "--input" ->
  arg flag = "" \/ File_exists fs (arg flag) = false ->
  Engine_execute std fs uninit raw_args (Engine_fresh h)
  = Some {| returned :=
              "[ERROR]: <ENGINE> Input file flag "
              ++ (if empty (arg flag) then "requires an argument!"
                  else "has invalid file as an argument!")
              ++ nl;
            written := None;
            engine_after := Engine_fresh h |}
  /\ option_map t_validated (execute_trace std fs uninit raw_args (Engine_fresh h))
     = Some [].
Proof.
  intros Hinst Hname Hbad.
  pose proof (from_vec_string_first uninit raw_args) as Hfirst.
  rewrite Hinst in Hfirst. simpl in Hfirst.
  destruct (flag_exists_one flag Hname) as [Hflag Hex].
  unfold Engine_execute, execute_trace, working_instruction.
  rewrite Hinst, Hflag. unfold size, get_flag_ptr. simpl.
  rewrite (Hfirst Hex). simpl. unfold Flag_is_empty.
  destruct (empty (arg flag)) eqn:E.
  - split; reflexivity.
  - destruct Hbad as [Hbad | Hbad].
    + rewrite Hbad in E. discriminate E.
    + rewrite Hbad. split; reflexivity.
Qed.

Lemma input_file_errors_witness :
  Engine_execute reference_std empty_fs 0 ["-i"; "args.txt"]
    (Engine_fresh (commands create_engine))
  = Some {| returned :=
              "[ERROR]: <ENGINE> Input file flag "
              ++ (if empty (arg {| name := "-i"; arg := "args.txt"; pos := 0;
                                   mod_ := 0 |})
                  then "requires an argument!"
                  else "has invalid file as an argument!")
              ++ nl;
            written := None;
            engine_after := Engine_fresh (commands create_engine) |}
  /\ option_map t_validated
       (execute_trace reference_std empty_fs 0 ["-i"; "args.txt"]
          (Engine_fresh (commands create_engine)))
     = Some [].
Proof.
  apply (input_file_errors reference_std empty_fs 0 ["-i"; "args.txt"]
           {| name := "-i"; arg := "args.txt"; pos := 0; mod_ := 0 |}).
  - reflexivity.
  - now left.
  - now right.
Defined.

(* ------------------------------------------------------------------ *)
(** ** Flags that must come last *)

Lemma from_vec_string_indices (uninit : N) (vec_s : list string) :
  (N.of_nat (length vec_s) < usize_modulus)%N ->
  positions_are_indices (from_vec_string uninit vec_s)
  \/ from_vec_string uninit vec_s = [Flag_new uninit].
Proof.
  intros Hlen.
  destruct (from_vec_string_loop_indices uninit vec_s 0%N [] (Flag_new uninit))
    as [Hidx|[_ Hone]].
  - lia.
  - reflexivity.
  - split; reflexivity.
  - now left.
  - now right.
Qed.

Lemma from_vec_string_length (uninit : N) (vec_s : list string) :
  (length (from_vec_string uninit vec_s) <= length vec_s)%nat.
Proof.
  pose proof (from_vec_string_loop_length uninit vec_s 0%N [] (Flag_new uninit)) as H.
  change (Flag_exists (Flag_new uninit)) with false in H. simpl in H.
  unfold from_vec_string. lia.
Qed.

Lemma positions_next (inst : Instruction) (i : nat) (flag : Flag) :
  positions_are_indices inst ->
  (N.of_nat (length inst) < usize_modulus)%N ->
  nth_error inst i = Some flag ->
  get_flag inst (usize_add (pos flag) 1) = nth_error inst (S i).
Proof.
  intros Hidx Hlen Hnth.
  assert (Hi : (i < length inst)%nat) by (apply nth_error_Some; congruence).
  assert (Hpos : pos flag = N.of_nat i).
  { pose proof (f_equal (fun l => nth_error l i) Hidx) as H. simpl in H.
    rewrite !nth_error_map, Hnth in H.
    rewrite (nth_error_nth' _ 0%nat) in H by (rewrite length_seq; exact Hi).
    rewrite seq_nth in H by exact Hi. simpl in H. now inversion H. }
  assert (Hnext : usize_add (pos flag) 1 = N.of_nat (S i)).
  { rewrite Hpos, usize_add_1 by lia. lia. }
  unfold get_flag. rewrite Hnext.
  rewrite (find_by_position _ 0) by (exact Hidx || lia).
  now rewrite Nat.sub_0_r.
Qed.

(** X25. In an instruction built from tokens, [-a] and [-p] are accepted
    only as the last flag and only with an argument: a flag behind them
    is reported first, a missing argument next. The call changes nothing. *)
Theorem related_words_flag_comes_last (fs : FileSystem) (uninit : N)
    (vec_s : list string) (c : Command) (i : nat) (flag : Flag)
    (ops : Operations) :
  (N.of_nat (length vec_s) < usize_modulus)%N ->
  c = ShowAnagrams \/ c = ShowPalindromes ->
  nth_error (from_vec_string uninit vec_s) i = Some flag ->
  Flag_exists flag = true ->
  validate fs c flag (from_vec_string uninit vec_s) ops
  = (if (S i <? length (from_vec_string uninit vec_s))%nat
     then Output_new_err
            (flag_string_stream flag ++ "This flag should be the last one")
     else if empty (arg flag)
          then Output_new_err
                 (flag_string_stream flag ++ "This flag requires an argument!")
          else Output_new_ok "",
     from_vec_string uninit vec_s, ops).
Proof.
  intros Hlen Hc Hnth Hex.
  pose proof (from_vec_string_length uninit vec_s) as Hbound.
  assert (Hnext : get_flag (from_vec_string uninit vec_s) (usize_add (pos flag) 1)
                  = nth_error (from_vec_string uninit vec_s) (S i)).
  { destruct (from_vec_string_indices uninit vec_s Hlen) as [Hidx | Hone].
    - apply positions_next; [exact Hidx | lia | exact Hnth].
    - rewrite Hone in Hnth. destruct i as [|[|i]]; simpl in Hnth; try discriminate.
      inversion Hnth; subst flag. discriminate Hex. }
  assert (Hval : validate fs c flag (from_vec_string uninit vec_s) ops
                 = (validate_last_with_argument flag (from_vec_string uninit vec_s),
                    from_vec_string uninit vec_s, ops))
    by (destruct Hc as [-> | ->]; reflexivity).
  rewrite Hval. unfold validate_last_with_argument. rewrite Hnext.
  destruct (nth_error (from_vec_string uninit vec_s) (S i)) as [next|] eqn:E.
  - assert (Hlt : (S i < length (from_vec_string uninit vec_s))%nat)
      by (apply nth_error_Some; congruence).
    apply Nat.ltb_lt in Hlt. now rewrite Hlt.
  - apply nth_error_None in E.
    assert (Hge : (S i <? length (from_vec_string uninit vec_s))%nat = false)
      by (apply Nat.ltb_ge; exact E).
    rewrite Hge. now destruct (empty (arg flag)).
Qed.

Lemma related_words_flag_comes_last_witness :
  validate empty_fs ShowAnagrams
    {| name := "-a"; arg := "tea"; pos := 0; mod_ := 0 |}
    (from_vec_string 7 ["-a"; "tea"; "-w"]) Operations_new
  = (if (1 <? length (from_vec_string 7 ["-a"; "tea"; "-w"]))%nat
     then Output_new_err
            (flag_string_stream {| name := "-a"; arg := "tea"; pos := 0; mod_ := 0 |}
             ++ "This flag should be the last one")
     else if empty (arg {| name := "-a"; arg := "tea"; pos := 0; mod_ := 0 |})
          then Output_new_err
                 (flag_string_stream
                    {| name := "-a"; arg := "tea"; pos := 0; mod_ := 0 |}
                  ++ "This flag requires an argument!")
          else Output_new_ok "",
     from_vec_string 7 ["-a"; "tea"; "-w"], Operations_new).
Proof.
  apply (related_words_flag_comes_last empty_fs 7 ["-a"; "tea"; "-w"]
           ShowAnagrams 0).
  - vm_compute. reflexivity.
  - now left.
  - reflexivity.
  - reflexivity.
Defined.

(* ------------------------------------------------------------------ *)
(** ** The execution pass *)

(** A run that reaches the execution pass has pushed nothing before it: its
    outputs are those the engine held, followed by what each call of the
    execution loop pushed, in the order of the calls. *)
Lemma dispatch_executed_outputs (std : StdLib) (fs : FileSystem) (e : Engine)
    (inst : Instruction) (calls : list (Command * Flag)) :
  t_executed (dispatch std fs e inst) = Some calls ->
  outputs (t_engine (dispatch std fs e inst))
  = outputs e
    ++ flat_map (pushed std fs (operations (t_engine (dispatch std fs e inst))))
         calls.
Proof.
  unfold dispatch.
  destruct (is_panicked (v_operations (source_check (validation_pass std fs e inst))))
    eqn:E; simpl; [discriminate|].
  intros H. inversion H. rewrite execution_loop_calls, execution_loop_pushed.
  f_equal. unfold source_check in *.
  destruct (empty _ && empty _); [discriminate E|].
  unfold validation_pass in *. now rewrite validation_loop_quiet.
Qed.

(** C1, as the code has it. In a run that reaches the execution pass, the
    execution loop calls [execute] once for every command that was
    validated and for no other, each time on a (command, flag) pair that
    was validated, and the outputs of the run are those the engine held
    followed by what these calls push, call after call. The calls follow
    the iteration order of the unordered map of validated commands, which
    is not tied to the order of the flags. *)
Theorem execution_calls_validated_commands (std : StdLib) (fs : FileSystem)
    (uninit : N) (raw_args : list string) (e : Engine) (t : Trace)
    (calls : list (Command * Flag)) :
  execute_trace std fs uninit raw_args e = Some t ->
  t_executed t = Some calls ->
  NoDup (map fst calls)
  /\ (forall c, In c (map fst calls) <-> In c (map fst (t_validated t)))
  /\ incl calls (t_validated t)
  /\ outputs (t_engine t)
     = outputs e ++ flat_map (pushed std fs (operations (t_engine t))) calls.
Proof.
  intros Ht Hc.
  destruct (executed_map_of_calls _ _ _ _ _ _ _ Ht Hc) as [Hnd Hin].
  split; [exact Hnd|]. split; [|split].
  - intros c. split.
    + intros H. apply in_map_iff in H. destruct H as [[k f] [E H]].
      simpl in E. subst k. apply Hin in H. apply last_binding_in in H.
      change c with (fst (c, f)). now apply in_map.
    + intros H. destruct (last_binding c (t_validated t)) as [f|] eqn:E.
      * apply Hin in E. change c with (fst (c, f)). now apply in_map.
      * apply last_binding_none in E. contradiction.
  - intros [c f] H. apply Hin in H. now apply last_binding_in.
  - destruct (execute_trace_executed _ _ _ _ _ _ _ Ht Hc) as [inst [_ ->]].
    now apply dispatch_executed_outputs.
Qed.

Lemma execution_calls_validated_commands_witness :
  exists t calls,
    execute_trace reversing_std (constant_fs "b a") 0
      ["-f"; "p"; "-w"; "-c"; "-w"] create_engine = Some t
    /\ t_executed t = Some calls
    /\ (NoDup (map fst calls)
        /\ (forall c, In c (map fst calls) <-> In c (map fst (t_validated t)))
        /\ incl calls (t_validated t)
        /\ outputs (t_engine t)
           = outputs create_engine
             ++ flat_map (pushed reversing_std (constant_fs "b a")
                            (operations (t_engine t))) calls).
Proof.
  eexists. eexists. split; [|split].
  - vm_compute. reflexivity.
  - reflexivity.
  - eapply (execution_calls_validated_commands reversing_std (constant_fs "b a") 0
              ["-f"; "p"; "-w"; "-c"; "-w"] create_engine).
    + vm_compute. reflexivity.
    + reflexivity.
Defined.

(** C1, as the claim has it. Where the map is visited from the key inserted
    last to the one inserted first, the run of [-f p -w -c] validates
    [-w] before [-c] and executes [-c] before [-w]: the line of [-c] comes
    first in the report. *)
Lemma execution_order_is_not_flag_order :
  exists t,
    execute_trace reversing_std (constant_fs "b a") 0
      ["-f"; "p"; "-w"; "-c"] create_engine = Some t
    /\ map fst (t_validated t) = [SourceFile; CountWords; CountChars]
    /\ option_map (map fst) (t_executed t)
       = Some [CountChars; CountWords; SourceFile]
    /\ map get_message (outputs (t_engine t))
       = ["<-c> Chars: 3"; "<-w> Words: 2"]
    /\ report (grab_output (t_engine t))
       = ("[SUCCESS]: <-c> Chars: 3" ++ nl ++ "[SUCCESS]: <-w> Words: 2" ++ nl)%string.
Proof. eexists. repeat split; vm_compute; reflexivity. Qed.

(** C9. When two flags or more resolve to one command and the run reaches
    the execution pass, the execution loop calls that command once, on the
    flag that was validated last for it: among the outputs of the run, the
    ones this call pushes stand between those of the calls of other
    commands, and no other output comes from the command. *)
Theorem repeated_command_executes_once (std : StdLib) (fs : FileSystem)
    (uninit : N) (raw_args : list string) (e : Engine) (t : Trace)
    (calls : list (Command * Flag)) (c : Command) (f1 f2 : Flag)
    (before between after : list (Command * Flag)) :
  execute_trace std fs uninit raw_args e = Some t ->
  t_executed t = Some calls ->
  t_validated t = before ++ (c, f1) :: between ++ (c, f2) :: after ->
  ~ In c (map fst after) ->
  filter (fun call => Command_eqb (fst call) c) calls = [(c, f2)]
  /\ exists first rest,
       calls = first ++ (c, f2) :: rest
       /\ ~ In c (map fst first)
       /\ ~ In c (map fst rest)
       /\ outputs (t_engine t)
          = outputs e
            ++ flat_map (pushed std fs (operations (t_engine t))) first
            ++ pushed std fs (operations (t_engine t)) (c, f2)
            ++ flat_map (pushed std fs (operations (t_engine t))) rest.
Proof.
  intros Ht Hc Hlog Hafter.
  destruct (executed_map_of_calls _ _ _ _ _ _ _ Ht Hc) as [Hnd Hin].
  assert (Hcall : In (c, f2) calls).
  { apply Hin. rewrite Hlog.
    rewrite last_binding_app. simpl. rewrite last_binding_app. simpl.
    apply last_binding_none in Hafter. rewrite Hafter.
    now rewrite Command_eqb_refl. }
  split; [now apply filter_key_single|].
  destruct (in_split _ _ Hcall) as [first [rest Hsplit]].
  exists first, rest. split; [exact Hsplit|].
  rewrite Hsplit, map_app in Hnd. simpl in Hnd.
  apply NoDup_remove_2 in Hnd. rewrite in_app_iff in Hnd.
  split; [tauto|]. split; [tauto|].
  destruct (execute_trace_executed _ _ _ _ _ _ _ Ht Hc) as [inst [_ ->]].
  rewrite (dispatch_executed_outputs _ _ _ _ _ Hc), Hsplit, flat_map_app.
  simpl. reflexivity.
Qed.

Lemma repeated_command_executes_once_witness :
  exists t calls,
    execute_trace reference_std (constant_fs "b a") 0
      ["-f"; "p"; "-w"; "-c"; "-w"] create_engine = Some t
    /\ t_executed t = Some calls
    /\ (filter (fun call => Command_eqb (fst call) CountWords) calls
        = [(CountWords, {| name := "-w"; arg := ""; pos := 3; mod_ := 0 |})]
        /\ exists first rest,
             calls
             = first
               ++ (CountWords, {| name := "-w"; arg := ""; pos := 3; mod_ := 0 |})
               :: rest
             /\ ~ In CountWords (map fst first)
             /\ ~ In CountWords (map fst rest)
             /\ outputs (t_engine t)
                = outputs create_engine
                  ++ flat_map (pushed reference_std (constant_fs "b a")
                                 (operations (t_engine t))) first
                  ++ pushed reference_std (constant_fs "b a")
                       (operations (t_engine t))
                       (CountWords,
                        {| name := "-w"; arg := ""; pos := 3; mod_ := 0 |})
                  ++ flat_map (pushed reference_std (constant_fs "b a")
                                 (operations (t_engine t))) rest).
Proof.
  eexists. eexists. split; [|split].
  - vm_compute. reflexivity.
  - reflexivity.
  - eapply (repeated_command_executes_once reference_std (constant_fs "b a") 0
              ["-f"; "p"; "-w"; "-c"; "-w"] create_engine _ _ CountWords
              {| name := "-w"; arg := ""; pos := 1; mod_ := 0 |}
              {| name := "-w"; arg := ""; pos := 3; mod_ := 0 |}
              [(SourceFile, {| name := "-f"; arg := "p"; pos := 0; mod_ := 0 |})]
              [(CountChars, {| name := "-c"; arg := ""; pos := 2; mod_ := 0 |})]
              []).
    + vm_compute. reflexivity.
    + reflexivity.
    + reflexivity.
    + intros [].
Defined.

(* ------------------------------------------------------------------ *)
(** ** What a run depends on *)







